(** * Pairing and liveness flow of the mecha-agent client

    The client is a set of Svelte pages.  Each page's script is a handful
    of component variables, timers ([setTimeout] / [setInterval]) and
    asynchronous calls to the local agent ([invoke]).  A page is embedded
    here as a timed event machine:

    - the state holds the page's variables under their source names, the
      clock [now] (milliseconds since the script ran), the due time of
      each timer ([None] once it has fired for good or has been cleared),
      the calls to the agent that have not settled yet, and the list of
      [goto] navigations in the order they were requested;
    - an event is one task of the JavaScript event loop together with the
      promise reactions it triggers: the passage of time with no task
      ([Elapse]), a timer callback, the settlement of an agent call, or
      the destruction of the component;
    - [step] returns [None] when the event cannot happen in that state: a
      timer that is not due, a call that is not outstanding, time that
      would run past a timer which has not fired. *)

From Stdlib Require Import ZArith List String Ascii Bool Lia.
Import ListNotations.

Open Scope string_scope.
Open Scope list_scope.
Open Scope Z_scope.

(** ** JavaScript values and the timer discipline shared by the pages *)

Module Js.

(** How a promise returned by [invoke] settles.  Tauri rejects with the
    error text of the command, a string. *)
Inductive Settled (A : Type) : Type :=
| Resolved (value : A)
| Rejected (error : string).
Arguments Resolved {A} value.
Arguments Rejected {A} error.

(** [String.prototype.toLowerCase] on the ASCII range. *)
Definition lower_ascii (c : ascii) : ascii :=
  let n := nat_of_ascii c in
  if ((65 <=? n)%nat && (n <=? 90)%nat)%bool then ascii_of_nat (n + 32) else c.

Fixpoint toLowerCase (s : string) : string :=
  match s with
  | EmptyString => EmptyString
  | String c rest => String (lower_ascii c) (toLowerCase rest)
  end.

(** [hay.includes(needle)]. *)
Fixpoint includes (needle hay : string) : bool :=
  String.prefix needle hay
  || match hay with
     | EmptyString => false
     | String _ rest => includes needle rest
     end.

(** The clock may advance to [t] without skipping the timer. *)
Definition not_overdue (t : Z) (due : option Z) : bool :=
  match due with
  | None => true
  | Some d => t <=? d
  end.

(** The timer's callback is to run now. *)
Definition is_due (now : Z) (due : option Z) : bool :=
  match due with
  | None => false
  | Some d => d =? now
  end.

Definition armed (due : option Z) : bool :=
  match due with
  | None => false
  | Some _ => true
  end.

(** The step function of a page lifted to a list of events.  The
    argument comes second so that [run step] is a function of the
    start state. *)
Fixpoint run {S E : Type} (step : S -> E -> option S) (st : S) (evs : list E)
  : option S :=
  match evs with
  | [] => Some st
  | e :: rest =>
      match step st e with
      | None => None
      | Some st' => run step st' rest
      end
  end.

(** The states a page can be in: those some sequence of events leads to
    from the state its script leaves. *)
Inductive reachable {S E : Type} (step : S -> E -> option S) (boot : S)
  : S -> Prop :=
| reach_boot : reachable step boot boot
| reach_step st e st' :
    reachable step boot st -> step st e = Some st' -> reachable step boot st'.

End Js.
Import Js.

(** The screens a page can navigate to with [goto]. *)
Inductive Route : Type :=
| check_internet
| link_machine
| no_internet
| setup_failed (error : string)
| configure_machine
| setup_success
| timeout_service
| machine_info.

(** ** check-internet: the one-shot connectivity check *)

Module CheckInternet.

(** Response of [get_ping_status]. *)
Record PingData : Type := { code : string }.

Record State : Type := {
  apiInProgress : bool;
  now : Z;
  check_timer : option Z;      (* setTimeout(..., 2000) *)
  pending_ping : bool;         (* check_ping_status() awaited *)
  mounted : bool;
  navigated : list Route
}.

Inductive Event : Type :=
| Elapse (d : Z)
| FireCheck
| PingSettled (r : Settled PingData)
| Destroy.

(** The script has run: the flag is set and the timer is armed. *)
Definition boot : State :=
  {| apiInProgress := true; now := 0; check_timer := Some 2000;
     pending_ping := false; mounted := true; navigated := [] |}.

Definition goto (r : Route) (st : State) : State :=
  {| apiInProgress := apiInProgress st; now := now st;
     check_timer := check_timer st; pending_ping := pending_ping st;
     mounted := mounted st; navigated := navigated st ++ [r] |}.

Definition set_apiInProgress (b : bool) (st : State) : State :=
  {| apiInProgress := b; now := now st;
     check_timer := check_timer st; pending_ping := pending_ping st;
     mounted := mounted st; navigated := navigated st |}.

(** The timer callback up to its [await]. *)
Definition on_check_timer (st : State) : State :=
  {| apiInProgress := apiInProgress st; now := now st;
     check_timer := None;
     pending_ping := if apiInProgress st then true else pending_ping st;
     mounted := mounted st; navigated := navigated st |}.

(** The rest of the callback, once [check_ping_status] has settled. *)
Definition on_ping_settled (r : Settled PingData) (st : State) : State :=
  let st := {| apiInProgress := apiInProgress st; now := now st;
               check_timer := check_timer st; pending_ping := false;
               mounted := mounted st; navigated := navigated st |} in
  match r with
  | Resolved data =>
      let st := set_apiInProgress false st in
      if String.eqb (code data) "success"
      then goto link_machine st
      else goto no_internet st
  | Rejected error =>
      goto (setup_failed error) (set_apiInProgress false st)
  end.

Definition onDestroy (st : State) : State :=
  {| apiInProgress := false; now := now st;
     check_timer := check_timer st; pending_ping := pending_ping st;
     mounted := false; navigated := navigated st |}.

Definition step (st : State) (e : Event) : option State :=
  match e with
  | Elapse d =>
      if (0 <? d) && not_overdue (now st + d) (check_timer st)
      then Some {| apiInProgress := apiInProgress st; now := now st + d;
                   check_timer := check_timer st;
                   pending_ping := pending_ping st;
                   mounted := mounted st; navigated := navigated st |}
      else None
  | FireCheck =>
      if is_due (now st) (check_timer st) then Some (on_check_timer st) else None
  | PingSettled r =>
      if pending_ping st then Some (on_ping_settled r st) else None
  | Destroy =>
      if mounted st then Some (onDestroy st) else None
  end.

(** The states the page can be in. *)
Definition reachable : State -> Prop := Js.reachable step boot.

(** What the specification calls [reachable]: the call succeeded and its
    status code is the success code. *)
Definition ping_ok (r : Settled PingData) : bool :=
  match r with
  | Resolved data => String.eqb (code data) "success"
  | Rejected _ => false
  end.

(** The routing rule as the specification words it: every failed check,
    agent error included, ends on the no-connectivity screen. *)
Definition failure_routes_to_no_internet : Prop :=
  forall st r st',
    reachable st ->
    step st (PingSettled r) = Some st' ->
    navigated st' =
      navigated st ++ [if ping_ok r then link_machine else no_internet].

(** Until it fires, the timer is armed for 2000 ms, nothing is awaited
    and [apiInProgress] is lowered only by destruction. *)
Definition waiting (st : State) : Prop :=
  match check_timer st with
  | Some d =>
      d = 2000 /\ 0 <= now st <= 2000 /\ pending_ping st = false
      /\ apiInProgress st = mounted st /\ navigated st = []
  | None => 2000 <= now st
  end.

(** Once the timer has fired, either the call is awaited and nothing has
    been navigated to, or one navigation at most has been made. *)
Definition answered (st : State) : Prop :=
  match check_timer st with
  | Some _ => True
  | None =>
      if pending_ping st
      then navigated st = []
      else (List.length (navigated st) <= 1)%nat
  end.

(** The page was destroyed before its check: the gate is closed, nothing
    is awaited and nothing has been navigated to. *)
Definition abandoned (st : State) : Prop :=
  mounted st = false /\ apiInProgress st = false
  /\ pending_ping st = false /\ navigated st = [].

(** The user goes back half a second after entering. *)
Definition left_early : list Event := [Elapse 500; Destroy].

(** The state at 2000 ms, once the timer has called the agent. *)
Definition awaiting_ping : State :=
  {| apiInProgress := true; now := 2000; check_timer := None;
     pending_ping := true; mounted := true; navigated := [] |}.

End CheckInternet.


(** ** link-machine: pairing code rotation, confirmation polling, countdown *)

Module LinkMachine.

(** Calls to the agent, as logged in issue order. *)
Inductive Call : Type :=
| generate_code
| provision_by_code (code : string).

(** Responses of [generate_code] and [provision_code]. *)
Record GenerateData : Type := { code : string }.
Record ProvisionData : Type := { success : bool }.

Record State : Type := {
  (* component variables *)
  provision_code : string;
  is_code_generated : bool;
  is_code_provision : bool;
  error_message : string;
  apiInProgress : bool;
  is_error : bool;
  timeout : Z;
  (* event loop *)
  now : Z;
  generate_code_process : option Z;    (* setInterval(..., 60000) *)
  provision_code_process : option Z;   (* setInterval(..., 20000) *)
  update_timer : option Z;             (* setInterval(..., 1000) *)
  mounted : bool;
  pending_generate : nat;              (* generate_code() calls awaited *)
  pending_provision : list string;     (* provision_by_code(c) calls awaited *)
  invoked : list Call;
  navigated : list Route
}.

Definition set_provision_code (v : string) (st : State) : State :=
  Build_State v (is_code_generated st) (is_code_provision st)
    (error_message st) (apiInProgress st) (is_error st) (timeout st)
    (now st) (generate_code_process st) (provision_code_process st)
    (update_timer st) (mounted st) (pending_generate st)
    (pending_provision st) (invoked st) (navigated st).

Definition set_is_code_generated (v : bool) (st : State) : State :=
  Build_State (provision_code st) v (is_code_provision st)
    (error_message st) (apiInProgress st) (is_error st) (timeout st)
    (now st) (generate_code_process st) (provision_code_process st)
    (update_timer st) (mounted st) (pending_generate st)
    (pending_provision st) (invoked st) (navigated st).

Definition set_is_code_provision (v : bool) (st : State) : State :=
  Build_State (provision_code st) (is_code_generated st) v
    (error_message st) (apiInProgress st) (is_error st) (timeout st)
    (now st) (generate_code_process st) (provision_code_process st)
    (update_timer st) (mounted st) (pending_generate st)
    (pending_provision st) (invoked st) (navigated st).

Definition set_error_message (v : string) (st : State) : State :=
  Build_State (provision_code st) (is_code_generated st)
    (is_code_provision st) v (apiInProgress st) (is_error st) (timeout st)
    (now st) (generate_code_process st) (provision_code_process st)
    (update_timer st) (mounted st) (pending_generate st)
    (pending_provision st) (invoked st) (navigated st).

Definition set_apiInProgress (v : bool) (st : State) : State :=
  Build_State (provision_code st) (is_code_generated st)
    (is_code_provision st) (error_message st) v (is_error st) (timeout st)
    (now st) (generate_code_process st) (provision_code_process st)
    (update_timer st) (mounted st) (pending_generate st)
    (pending_provision st) (invoked st) (navigated st).

Definition set_is_error (v : bool) (st : State) : State :=
  Build_State (provision_code st) (is_code_generated st)
    (is_code_provision st) (error_message st) (apiInProgress st) v
    (timeout st) (now st) (generate_code_process st)
    (provision_code_process st) (update_timer st) (mounted st)
    (pending_generate st) (pending_provision st) (invoked st) (navigated st).

Definition set_timeout (v : Z) (st : State) : State :=
  Build_State (provision_code st) (is_code_generated st)
    (is_code_provision st) (error_message st) (apiInProgress st)
    (is_error st) v (now st) (generate_code_process st)
    (provision_code_process st) (update_timer st) (mounted st)
    (pending_generate st) (pending_provision st) (invoked st) (navigated st).

Definition set_now (v : Z) (st : State) : State :=
  Build_State (provision_code st) (is_code_generated st)
    (is_code_provision st) (error_message st) (apiInProgress st)
    (is_error st) (timeout st) v (generate_code_process st)
    (provision_code_process st) (update_timer st) (mounted st)
    (pending_generate st) (pending_provision st) (invoked st) (navigated st).

Definition set_generate_code_process (v : option Z) (st : State) : State :=
  Build_State (provision_code st) (is_code_generated st)
    (is_code_provision st) (error_message st) (apiInProgress st)
    (is_error st) (timeout st) (now st) v (provision_code_process st)
    (update_timer st) (mounted st) (pending_generate st)
    (pending_provision st) (invoked st) (navigated st).

Definition set_provision_code_process (v : option Z) (st : State) : State :=
  Build_State (provision_code st) (is_code_generated st)
    (is_code_provision st) (error_message st) (apiInProgress st)
    (is_error st) (timeout st) (now st) (generate_code_process st) v
    (update_timer st) (mounted st) (pending_generate st)
    (pending_provision st) (invoked st) (navigated st).

Definition set_update_timer (v : option Z) (st : State) : State :=
  Build_State (provision_code st) (is_code_generated st)
    (is_code_provision st) (error_message st) (apiInProgress st)
    (is_error st) (timeout st) (now st) (generate_code_process st)
    (provision_code_process st) v (mounted st) (pending_generate st)
    (pending_provision st) (invoked st) (navigated st).

Definition set_mounted (v : bool) (st : State) : State :=
  Build_State (provision_code st) (is_code_generated st)
    (is_code_provision st) (error_message st) (apiInProgress st)
    (is_error st) (timeout st) (now st) (generate_code_process st)
    (provision_code_process st) (update_timer st) v (pending_generate st)
    (pending_provision st) (invoked st) (navigated st).

Definition set_pending_generate (v : nat) (st : State) : State :=
  Build_State (provision_code st) (is_code_generated st)
    (is_code_provision st) (error_message st) (apiInProgress st)
    (is_error st) (timeout st) (now st) (generate_code_process st)
    (provision_code_process st) (update_timer st) (mounted st) v
    (pending_provision st) (invoked st) (navigated st).

Definition set_pending_provision (v : list string) (st : State) : State :=
  Build_State (provision_code st) (is_code_generated st)
    (is_code_provision st) (error_message st) (apiInProgress st)
    (is_error st) (timeout st) (now st) (generate_code_process st)
    (provision_code_process st) (update_timer st) (mounted st)
    (pending_generate st) v (invoked st) (navigated st).

Definition set_invoked (v : list Call) (st : State) : State :=
  Build_State (provision_code st) (is_code_generated st)
    (is_code_provision st) (error_message st) (apiInProgress st)
    (is_error st) (timeout st) (now st) (generate_code_process st)
    (provision_code_process st) (update_timer st) (mounted st)
    (pending_generate st) (pending_provision st) v (navigated st).

Definition set_navigated (v : list Route) (st : State) : State :=
  Build_State (provision_code st) (is_code_generated st)
    (is_code_provision st) (error_message st) (apiInProgress st)
    (is_error st) (timeout st) (now st) (generate_code_process st)
    (provision_code_process st) (update_timer st) (mounted st)
    (pending_generate st) (pending_provision st) (invoked st) v.

Definition goto (r : Route) (st : State) : State :=
  set_navigated (navigated st ++ [r]) st.

(** [l] without its [i]-th element. *)
Definition remove_nth {A : Type} (i : nat) (l : list A) : list A :=
  firstn i l ++ skipn (S i) l.

(** [generate_code_req] up to its [await]. *)
Definition generate_code_req (st : State) : State :=
  let st := set_timeout 60 st in
  let st := if negb (apiInProgress st) then set_apiInProgress true st else st in
  if apiInProgress st
  then set_invoked (invoked st ++ [generate_code])
         (set_pending_generate (S (pending_generate st)) st)
  else st.

(** The rest of [generate_code_req], once [generate_code] has settled. *)
Definition generate_code_settled (r : Settled GenerateData) (st : State) : State :=
  let st := set_pending_generate (Nat.pred (pending_generate st)) st in
  match r with
  | Resolved data =>
      set_is_code_generated true (set_provision_code (code data) st)
  | Rejected _ =>
      set_error_message "Something went wrong! Try again!" (set_is_error true st)
  end.

(** The callback of [provision_code_process] up to its [await]. *)
Definition provision_code_tick (st : State) : State :=
  if is_code_generated st
  then set_invoked (invoked st ++ [provision_by_code (provision_code st)])
         (set_pending_provision (pending_provision st ++ [provision_code st]) st)
  else st.

(** The rest of that callback, once the [i]-th outstanding
    [provision_by_code] call has settled. *)
Definition provision_code_settled (i : nat) (r : Settled ProvisionData)
  (st : State) : State :=
  let st := set_pending_provision (remove_nth i (pending_provision st)) st in
  match r with
  | Resolved data =>
      let st := set_is_code_provision (Bool.eqb (success data) true) st in
      let st := set_apiInProgress (Bool.eqb (success data) true) st in
      if negb (success data)
      then set_error_message "Incorrect code! Try again!"
             (set_apiInProgress false st)
      else st
  | Rejected error =>
      let st := set_apiInProgress false st in
      if negb (includes "parse response" (toLowerCase error))
      then set_error_message "Something went wrong! Try again!"
             (set_is_error true st)
      else st
  end.

(** The callback of [update_timer]. *)
Definition update_timer_tick (st : State) : State :=
  if is_code_generated st
  then
    let st := if timeout st <=? 0 then set_timeout 60 st else st in
    set_timeout (timeout st - 1) st
  else st.

Definition clearIntervalProcess (st : State) : State :=
  set_update_timer None
    (set_provision_code_process None
       (set_generate_code_process None (set_apiInProgress false st))).

(** The reactive block [$: if (is_code_provision) ... else if (is_error) ...]. *)
Definition reactive (st : State) : State :=
  if is_code_provision st
  then goto configure_machine (clearIntervalProcess st)
  else if is_error st
       then goto (setup_failed (error_message st)) st
       else st.

(** The variables the reactive block reads; Svelte re-runs the block after
    a task only if one of them changed, and only while the component is
    mounted. *)
Definition invalidated (old new : State) : bool :=
  negb (Bool.eqb (is_code_provision old) (is_code_provision new))
  || negb (Bool.eqb (is_error old) (is_error new))
  || negb (String.eqb (error_message old) (error_message new)).

Definition flush (old new : State) : State :=
  if mounted new && invalidated old new then reactive new else new.

(** A task: the callback, then the pending component update. *)
Definition task (callback : State -> State) (st : State) : State :=
  flush st (callback st).

Definition onDestroy (st : State) : State :=
  set_mounted false (clearIntervalProcess st).

(** The state once the script has run (variables initialised, the three
    intervals armed, the reactive block evaluated once) and [onMount] has
    called [generate_code_req]. *)
Definition script : State :=
  {| provision_code := " "; is_code_generated := false;
     is_code_provision := false; error_message := "";
     apiInProgress := true; is_error := false; timeout := 60;
     now := 0;
     generate_code_process := Some 60000;
     provision_code_process := Some 20000;
     update_timer := Some 1000;
     mounted := true; pending_generate := 0%nat; pending_provision := [];
     invoked := []; navigated := [] |}.

Definition boot : State := generate_code_req (reactive script).

Inductive Event : Type :=
| Elapse (d : Z)
| Fire_generate_code_process
| Fire_provision_code_process
| Fire_update_timer
| GenerateSettled (r : Settled GenerateData)
| ProvisionSettled (i : nat) (r : Settled ProvisionData)
| Destroy.

Definition step (st : State) (e : Event) : option State :=
  match e with
  | Elapse d =>
      if (0 <? d)
         && not_overdue (now st + d) (generate_code_process st)
         && not_overdue (now st + d) (provision_code_process st)
         && not_overdue (now st + d) (update_timer st)
      then Some (set_now (now st + d) st)
      else None
  | Fire_generate_code_process =>
      if is_due (now st) (generate_code_process st)
      then Some (task generate_code_req
                   (set_generate_code_process (Some (now st + 60000)) st))
      else None
  | Fire_provision_code_process =>
      if is_due (now st) (provision_code_process st)
      then Some (task provision_code_tick
                   (set_provision_code_process (Some (now st + 20000)) st))
      else None
  | Fire_update_timer =>
      if is_due (now st) (update_timer st)
      then Some (task update_timer_tick
                   (set_update_timer (Some (now st + 1000)) st))
      else None
  | GenerateSettled r =>
      if (0 <? pending_generate st)%nat
      then Some (task (generate_code_settled r) st)
      else None
  | ProvisionSettled i r =>
      match nth_error (pending_provision st) i with
      | Some _ => Some (task (provision_code_settled i r) st)
      | None => None
      end
  | Destroy =>
      if mounted st then Some (onDestroy st) else None
  end.

(** The states the page can be in. *)
Definition reachable : State -> Prop := Js.reachable step boot.

(** One second of wall time on the pairing screen: the clock advances to
    the next [update_timer] tick, which then runs. *)
Definition a_second : list Event := [Elapse 1000; Fire_update_timer].

Fixpoint seconds (n : nat) : list Event :=
  match n with
  | O => []
  | S k => a_second ++ seconds k
  end.

(** The state a sequence of events leads to from [boot]. *)
Definition after (evs : list Event) : State :=
  match run step boot evs with
  | Some st => st
  | None => boot
  end.

(** An interval of the given period, if still armed, is due at a
    positive multiple of its period, no earlier than now and no later
    than one period from now. *)
Definition on_time (period now : Z) (due : option Z) : Prop :=
  match due with
  | Some d => now <= d <= now + period /\ 0 < d /\ d mod period = 0
  | None => True
  end.

Definition cleared (st : State) : Prop :=
  generate_code_process st = None
  /\ provision_code_process st = None
  /\ update_timer st = None.

Definition all_armed (st : State) : Prop :=
  armed (generate_code_process st) = true
  /\ armed (provision_code_process st) = true
  /\ armed (update_timer st) = true.

(** What holds of the clock, the intervals and the counters in every
    reachable state of the pairing screen. *)
Record Core (st : State) : Prop := {
  core_now : 0 <= now st;
  core_generate_timer : on_time 60000 (now st) (generate_code_process st);
  core_provision_timer : on_time 20000 (now st) (provision_code_process st);
  core_update_timer : on_time 1000 (now st) (update_timer st);
  core_timeout : 0 <= timeout st <= 60;
  core_polled : pending_provision st <> [] -> is_code_generated st = true
}.

(** How the flags the reactive block reads relate to the navigation and
    to the intervals while the component is mounted, and what is left of
    the intervals once it is destroyed. *)
Record Routing (st : State) : Prop := {
  routing_confirmed :
    mounted st = true -> is_code_provision st = true ->
    cleared st /\ exists l, navigated st = l ++ [configure_machine];
  routing_failed :
    mounted st = true -> is_code_provision st = false -> is_error st = true ->
    exists l, navigated st = l ++ [setup_failed (error_message st)];
  routing_armed :
    mounted st = true -> ~ In configure_machine (navigated st) -> all_armed st;
  routing_destroyed : mounted st = false -> cleared st
}.

Definition Inv (st : State) : Prop := Core st /\ Routing st.

(** Events that belong to the current code cycle: time passing, the
    countdown and the poll ticks, but neither a rotation nor a response
    to [generate_code]. *)
Definition same_cycle (e : Event) : bool :=
  match e with
  | Elapse _ | Fire_update_timer | Fire_provision_code_process => true
  | _ => false
  end.

(** A slow agent: a code ["A1B2C3"] is issued at once, the first poll
    leaves at 20000 ms and is still unanswered when the second leaves at
    40000 ms. *)
Definition two_polls : list Event :=
  GenerateSettled (Resolved {| code := "A1B2C3" |})
  :: seconds 20 ++ [Fire_provision_code_process]
  ++ seconds 20 ++ [Fire_provision_code_process].

(** A wrong code: the first poll, at 20000 ms, is answered at once with
    [success = false]. *)
Definition rejected_poll : list Event :=
  GenerateSettled (Resolved {| code := "A1B2C3" |})
  :: seconds 20 ++ [Fire_provision_code_process].

(** Two minutes on the pairing screen with no answer from the agent
    after the first code; at 60000 ms the rotation runs before the
    countdown tick.  The countdown is at zero when the clock reaches
    120000 ms. *)
Definition two_minutes : list Event :=
  GenerateSettled (Resolved {| code := "A1B2C3" |})
  :: seconds 20 ++ [Fire_provision_code_process]
  ++ seconds 20 ++ [Fire_provision_code_process]
  ++ seconds 19
  ++ [Elapse 1000; Fire_generate_code_process; Fire_update_timer;
      Fire_provision_code_process]
  ++ seconds 20 ++ [Fire_provision_code_process]
  ++ seconds 20 ++ [Fire_provision_code_process]
  ++ seconds 19 ++ [Elapse 1000].

(** Every poll of the first minute is answered at once with
    [success = false]; at 60000 ms the rotation runs and the agent
    issues a second code. *)
Definition wrong_code_minute : list Event :=
  GenerateSettled (Resolved {| code := "A1B2C3" |})
  :: seconds 20
  ++ [Fire_provision_code_process;
      ProvisionSettled 0 (Resolved {| success := false |})]
  ++ seconds 20
  ++ [Fire_provision_code_process;
      ProvisionSettled 0 (Resolved {| success := false |})]
  ++ seconds 20
  ++ [Fire_provision_code_process;
      ProvisionSettled 0 (Resolved {| success := false |});
      Fire_generate_code_process;
      GenerateSettled (Resolved {| code := "Z9Y8X7" |})].

(** The first poll, at 20000 ms, is still unanswered. *)
Definition first_poll : list Event :=
  GenerateSettled (Resolved {| code := "A1B2C3" |})
  :: seconds 20 ++ [Fire_provision_code_process].

(** A timer callback. *)
Definition is_tick (e : Event) : bool :=
  match e with
  | Fire_generate_code_process | Fire_provision_code_process
  | Fire_update_timer => true
  | _ => false
  end.

(** The suspension rule as the specification words it: after a response
    with [success = false], no poll is issued until a new code cycle
    begins. *)
Definition polling_suspended_after_invalid_code : Prop :=
  forall st i st' evs st'',
    reachable st ->
    step st (ProvisionSettled i (Resolved {| success := false |})) = Some st' ->
    forallb same_cycle evs = true ->
    run step st' evs = Some st'' ->
    invoked st'' = invoked st'.

(** The in-flight rule as the specification words it: no two outstanding
    [provision_by_code] calls carry the same code. *)
Definition single_poll_in_flight : Prop :=
  forall st, reachable st -> NoDup (pending_provision st).

(** The wrap rule as the specification words it: the tick that finds the
    countdown at zero leaves it at 60. *)
Definition countdown_wraps_to_60 : Prop :=
  forall st st',
    reachable st ->
    is_code_generated st = true ->
    timeout st = 0 ->
    step st Fire_update_timer = Some st' ->
    timeout st' = 60.

(** How often each agent operation has been called. *)
Definition generate_calls (st : State) : Z :=
  Z.of_nat (List.length
              (filter (fun c => match c with
                                | generate_code => true
                                | provision_by_code _ => false
                                end) (invoked st))).

Definition provision_calls (st : State) : Z :=
  Z.of_nat (List.length
              (filter (fun c => match c with
                                | generate_code => false
                                | provision_by_code _ => true
                                end) (invoked st))).

(** The calls made so far against the schedule of the two intervals that
    make them: one [generate_code] on mount and one per rotation tick,
    one [provision_by_code] per poll tick at most. *)
Record Rate (st : State) : Prop := {
  rate_generate :
    match generate_code_process st with
    | Some d => 60000 * generate_calls st = d
    | None => 60000 * generate_calls st <= now st + 60000
    end;
  rate_provision :
    match provision_code_process st with
    | Some d => 20000 * provision_calls st + 20000 <= d
    | None => 20000 * provision_calls st <= now st
    end
}.

(** The only screens the pairing screen navigates to. *)
Definition pairing_route (r : Route) : Prop :=
  r = configure_machine \/ exists message, r = setup_failed message.

(** The agent cannot issue a code. *)
Definition no_code : list Event :=
  [GenerateSettled (Rejected "transport error")].

(** The user goes back after 20 seconds, the first poll unanswered; the
    agent answers both calls of the second minute later on. *)
Definition left_while_polling : list Event :=
  first_poll ++ [Destroy].

End LinkMachine.


(** The value held by the [machineInfo] store ([MachineDataType]); a
    field is [None] while the object has no such property. *)
Record MachineDataType : Type := {
  id : option string;
  name : option string;
  icon : option string
}.

(** ** configure-machine: identity resolution raced against a deadline *)

Module ConfigureMachine.

(** Response of [get_machine_id]. *)
Record MachineIdData : Type := { machine_id : string }.

(** A promise is [None] while pending. *)
Record State : Type := {
  get_machine_id_data : option (Settled MachineIdData);
  checkTimeout : option string;          (* only ever rejected *)
  raced : bool;                          (* Promise.race has been called *)
  outcome : option (Settled MachineIdData);   (* settlement of the race *)
  machineInfo : MachineDataType;
  now : Z;
  timeout_timer : option Z;              (* setTimeout(reject, 15000, 'Timeout') *)
  race_timer : option Z;                 (* setTimeout(() => Promise.race ..., 3000) *)
  pending_machine_id : bool;             (* get_machine_id() awaited *)
  navigated : list Route
}.

Definition set_get_machine_id_data (v : option (Settled MachineIdData)) (st : State) : State :=
  Build_State v (checkTimeout st) (raced st) (outcome st) (machineInfo st)
    (now st) (timeout_timer st) (race_timer st) (pending_machine_id st)
    (navigated st).

Definition set_checkTimeout (v : option string) (st : State) : State :=
  Build_State (get_machine_id_data st) v (raced st) (outcome st)
    (machineInfo st) (now st) (timeout_timer st) (race_timer st)
    (pending_machine_id st) (navigated st).

Definition set_raced (v : bool) (st : State) : State :=
  Build_State (get_machine_id_data st) (checkTimeout st) v (outcome st)
    (machineInfo st) (now st) (timeout_timer st) (race_timer st)
    (pending_machine_id st) (navigated st).

Definition set_outcome (v : option (Settled MachineIdData)) (st : State) : State :=
  Build_State (get_machine_id_data st) (checkTimeout st) (raced st) v
    (machineInfo st) (now st) (timeout_timer st) (race_timer st)
    (pending_machine_id st) (navigated st).

Definition set_machineInfo (v : MachineDataType) (st : State) : State :=
  Build_State (get_machine_id_data st) (checkTimeout st) (raced st)
    (outcome st) v (now st) (timeout_timer st) (race_timer st)
    (pending_machine_id st) (navigated st).

Definition set_now (v : Z) (st : State) : State :=
  Build_State (get_machine_id_data st) (checkTimeout st) (raced st)
    (outcome st) (machineInfo st) v (timeout_timer st) (race_timer st)
    (pending_machine_id st) (navigated st).

Definition set_timeout_timer (v : option Z) (st : State) : State :=
  Build_State (get_machine_id_data st) (checkTimeout st) (raced st)
    (outcome st) (machineInfo st) (now st) v (race_timer st)
    (pending_machine_id st) (navigated st).

Definition set_race_timer (v : option Z) (st : State) : State :=
  Build_State (get_machine_id_data st) (checkTimeout st) (raced st)
    (outcome st) (machineInfo st) (now st) (timeout_timer st) v
    (pending_machine_id st) (navigated st).

Definition set_pending_machine_id (v : bool) (st : State) : State :=
  Build_State (get_machine_id_data st) (checkTimeout st) (raced st)
    (outcome st) (machineInfo st) (now st) (timeout_timer st) (race_timer st)
    v (navigated st).

Definition set_navigated (v : list Route) (st : State) : State :=
  Build_State (get_machine_id_data st) (checkTimeout st) (raced st)
    (outcome st) (machineInfo st) (now st) (timeout_timer st) (race_timer st)
    (pending_machine_id st) v.

Definition goto (r : Route) (st : State) : State :=
  set_navigated (navigated st ++ [r]) st.

(** The [.then] / [.catch] handlers attached to the race. *)
Definition race_handlers (s : Settled MachineIdData) (st : State) : State :=
  match s with
  | Resolved _ => goto setup_success st
  | Rejected error =>
      if String.eqb error "Timeout"
      then goto timeout_service st
      else goto (setup_failed "Fetching machine data failed, Please try again") st
  end.

(** [Promise.race([get_machine_id_data, checkTimeout])]: once called and
    while unsettled, the race takes the settlement of the first settled
    input, in array order, and runs its handlers. *)
Definition settle_race (st : State) : State :=
  if raced st
  then match outcome st with
       | Some _ => st
       | None =>
           match get_machine_id_data st, checkTimeout st with
           | Some s, _ => race_handlers s (set_outcome (Some s) st)
           | None, Some reason =>
               race_handlers (Rejected reason)
                 (set_outcome (Some (Rejected reason)) st)
           | None, None => st
           end
       end
  else st.

(** Settling a promise that is already settled has no effect. *)
Definition settle {A : Type} (p : option A) (s : A) : option A :=
  match p with
  | Some _ => p
  | None => Some s
  end.

(** The executor's reactions to [get_machine_id()]. *)
Definition machine_id_settled (r : Settled MachineIdData) (st : State) : State :=
  let st := set_pending_machine_id false st in
  match r with
  | Resolved data =>
      let st := set_machineInfo
                  {| id := Some (machine_id data); name := None; icon := None |}
                  st in
      set_get_machine_id_data
        (settle (get_machine_id_data st) (Resolved data)) st
  | Rejected error =>
      set_get_machine_id_data
        (settle (get_machine_id_data st) (Rejected error)) st
  end.

(** The callback of the 15000 ms timer: [reject('Timeout')]. *)
Definition timeout_fires (st : State) : State :=
  set_checkTimeout (settle (checkTimeout st) "Timeout")
    (set_timeout_timer None st).

(** The callback of the 3000 ms timer: [Promise.race(...)]. *)
Definition race_starts (st : State) : State :=
  set_raced true (set_race_timer None st).

(** The script has run: [get_machine_id()] is outstanding and both timers
    are armed. *)
Definition boot : State :=
  {| get_machine_id_data := None; checkTimeout := None; raced := false;
     outcome := None;
     machineInfo := {| id := None; name := None; icon := None |};
     now := 0; timeout_timer := Some 15000; race_timer := Some 3000;
     pending_machine_id := true; navigated := [] |}.

Inductive Event : Type :=
| Elapse (d : Z)
| Fire_timeout_timer
| Fire_race_timer
| MachineIdSettled (r : Settled MachineIdData).

Definition step (st : State) (e : Event) : option State :=
  match e with
  | Elapse d =>
      if (0 <? d)
         && not_overdue (now st + d) (timeout_timer st)
         && not_overdue (now st + d) (race_timer st)
      then Some (set_now (now st + d) st)
      else None
  | Fire_timeout_timer =>
      if is_due (now st) (timeout_timer st)
      then Some (settle_race (timeout_fires st))
      else None
  | Fire_race_timer =>
      if is_due (now st) (race_timer st)
      then Some (settle_race (race_starts st))
      else None
  | MachineIdSettled r =>
      if pending_machine_id st
      then Some (settle_race (machine_id_settled r st))
      else None
  end.

(** The states the page can be in. *)
Definition reachable : State -> Prop := Js.reachable step boot.

(** The three outcomes of identity resolution, read off the navigation. *)
Inductive Outcome : Type :=
| Success
| TimedOut
| Failed (error : string).

Definition outcome_of (r : Route) : option Outcome :=
  match r with
  | setup_success => Some Success
  | timeout_service => Some TimedOut
  | setup_failed error => Some (Failed error)
  | _ => None
  end.

(** The screen the race handlers navigate to. *)
Definition route_for (s : Settled MachineIdData) : Route :=
  match s with
  | Resolved _ => setup_success
  | Rejected error =>
      if String.eqb error "Timeout"
      then timeout_service
      else setup_failed "Fetching machine data failed, Please try again"
  end.

(** What holds of every reachable state: each timer is either armed for
    its own due time, which the clock has not passed, or has fired; the
    call is outstanding exactly while its promise is pending; and the
    race, once called, is settled exactly when one of its inputs is,
    with one navigation for its settlement. *)
Record Inv (st : State) : Prop := {
  inv_race_timer :
    match race_timer st with
    | Some d => d = 3000 /\ 0 <= now st <= 3000 /\ raced st = false
    | None => raced st = true /\ 3000 <= now st
    end;
  inv_timeout_timer :
    match timeout_timer st with
    | Some d => d = 15000 /\ 0 <= now st <= 15000 /\ checkTimeout st = None
    | None => checkTimeout st = Some "Timeout" /\ 15000 <= now st
    end;
  inv_pending :
    pending_machine_id st =
    match get_machine_id_data st with None => true | Some _ => false end;
  inv_race :
    if raced st
    then match outcome st with
         | None => get_machine_id_data st = None /\ checkTimeout st = None
                   /\ navigated st = []
         | Some s =>
             navigated st = [route_for s]
             /\ (get_machine_id_data st = Some s
                 \/ s = Rejected "Timeout" /\ checkTimeout st = Some "Timeout")
         end
    else outcome st = None /\ navigated st = [];
  inv_store :
    match get_machine_id_data st with
    | Some (Resolved data) =>
        machineInfo st =
        {| id := Some (machine_id data); name := None; icon := None |}
    | _ => machineInfo st = {| id := None; name := None; icon := None |}
    end
}.

(** The state a sequence of events leads to from [boot]. *)
Definition after (evs : list Event) : State :=
  match run step boot evs with
  | Some st => st
  | None => boot
  end.

(** The call has settled with [s] before the deadline: [s] is what the
    race settles with as soon as it is called. *)
Definition decided (s : Settled MachineIdData) (st : State) : Prop :=
  get_machine_id_data st = Some s
  /\ if raced st
     then outcome st = Some s /\ navigated st = [route_for s]
     else outcome st = None /\ navigated st = [].

(** The failure rule as the specification words it: a call that fails
    before the deadline always ends on the generic failure screen. *)
Definition failure_before_deadline_is_failed : Prop :=
  forall st error st' evs st'',
    reachable st ->
    timeout_timer st <> None ->
    step st (MachineIdSettled (Rejected error)) = Some st' ->
    run step st' evs = Some st'' ->
    raced st'' = true ->
    exists message, navigated st'' = [setup_failed message].

(** The cancellation rule as the specification words it: the deadline
    timer is cancelled the instant the call resolves. *)
Definition deadline_cancelled_on_success : Prop :=
  forall st data st',
    reachable st ->
    timeout_timer st <> None ->
    step st (MachineIdSettled (Resolved data)) = Some st' ->
    timeout_timer st' = None.

End ConfigureMachine.


(** ** machine-info: the two liveness cadences of the configured screen *)

Module MachineInfo.

Inductive Call : Type :=
| get_ping_status
| get_machine_info (key : string).

(** Responses of [get_ping_status] and [get_machine_info]. *)
Record PingData : Type := { code : string }.
Record InfoData : Type := { value : string }.

(** Progress of one [get_machine_info()] of the service layer, which
    awaits the name and then the icon. *)
Inductive InfoStage : Type :=
| AwaitName
| AwaitIcon (name_value : string).

Record State : Type := {
  (* component variables *)
  storeData : MachineDataType;
  machine_id : option string;
  machine_name : string;
  machine_icon : string;
  is_active : bool;
  is_error : bool;
  is_loading : bool;
  error_message : string;
  (* the shared store *)
  machineInfo : MachineDataType;
  (* event loop *)
  now : Z;
  health_timer : option Z;       (* setInterval(check_active_status, 10000) *)
  metadata_timer : option Z;     (* setInterval(get_machine_data, period) *)
  loading_timer : option Z;      (* setTimeout(..., 3000) of onMount *)
  mounted : bool;
  pending_ping : nat;
  pending_info : list InfoStage;
  invoked : list Call
}.

Definition set_storeData (v : MachineDataType) (st : State) : State :=
  Build_State v (machine_id st) (machine_name st) (machine_icon st)
    (is_active st) (is_error st) (is_loading st) (error_message st)
    (machineInfo st) (now st) (health_timer st) (metadata_timer st)
    (loading_timer st) (mounted st) (pending_ping st) (pending_info st)
    (invoked st).

Definition set_machine_id (v : option string) (st : State) : State :=
  Build_State (storeData st) v (machine_name st) (machine_icon st)
    (is_active st) (is_error st) (is_loading st) (error_message st)
    (machineInfo st) (now st) (health_timer st) (metadata_timer st)
    (loading_timer st) (mounted st) (pending_ping st) (pending_info st)
    (invoked st).

Definition set_machine_name (v : string) (st : State) : State :=
  Build_State (storeData st) (machine_id st) v (machine_icon st)
    (is_active st) (is_error st) (is_loading st) (error_message st)
    (machineInfo st) (now st) (health_timer st) (metadata_timer st)
    (loading_timer st) (mounted st) (pending_ping st) (pending_info st)
    (invoked st).

Definition set_machine_icon (v : string) (st : State) : State :=
  Build_State (storeData st) (machine_id st) (machine_name st) v
    (is_active st) (is_error st) (is_loading st) (error_message st)
    (machineInfo st) (now st) (health_timer st) (metadata_timer st)
    (loading_timer st) (mounted st) (pending_ping st) (pending_info st)
    (invoked st).

Definition set_is_active (v : bool) (st : State) : State :=
  Build_State (storeData st) (machine_id st) (machine_name st)
    (machine_icon st) v (is_error st) (is_loading st) (error_message st)
    (machineInfo st) (now st) (health_timer st) (metadata_timer st)
    (loading_timer st) (mounted st) (pending_ping st) (pending_info st)
    (invoked st).

Definition set_is_error (v : bool) (st : State) : State :=
  Build_State (storeData st) (machine_id st) (machine_name st)
    (machine_icon st) (is_active st) v (is_loading st) (error_message st)
    (machineInfo st) (now st) (health_timer st) (metadata_timer st)
    (loading_timer st) (mounted st) (pending_ping st) (pending_info st)
    (invoked st).

Definition set_is_loading (v : bool) (st : State) : State :=
  Build_State (storeData st) (machine_id st) (machine_name st)
    (machine_icon st) (is_active st) (is_error st) v (error_message st)
    (machineInfo st) (now st) (health_timer st) (metadata_timer st)
    (loading_timer st) (mounted st) (pending_ping st) (pending_info st)
    (invoked st).

Definition set_error_message (v : string) (st : State) : State :=
  Build_State (storeData st) (machine_id st) (machine_name st)
    (machine_icon st) (is_active st) (is_error st) (is_loading st) v
    (machineInfo st) (now st) (health_timer st) (metadata_timer st)
    (loading_timer st) (mounted st) (pending_ping st) (pending_info st)
    (invoked st).

Definition set_machineInfo (v : MachineDataType) (st : State) : State :=
  Build_State (storeData st) (machine_id st) (machine_name st)
    (machine_icon st) (is_active st) (is_error st) (is_loading st)
    (error_message st) v (now st) (health_timer st) (metadata_timer st)
    (loading_timer st) (mounted st) (pending_ping st) (pending_info st)
    (invoked st).

Definition set_now (v : Z) (st : State) : State :=
  Build_State (storeData st) (machine_id st) (machine_name st)
    (machine_icon st) (is_active st) (is_error st) (is_loading st)
    (error_message st) (machineInfo st) v (health_timer st)
    (metadata_timer st) (loading_timer st) (mounted st) (pending_ping st)
    (pending_info st) (invoked st).

Definition set_health_timer (v : option Z) (st : State) : State :=
  Build_State (storeData st) (machine_id st) (machine_name st)
    (machine_icon st) (is_active st) (is_error st) (is_loading st)
    (error_message st) (machineInfo st) (now st) v (metadata_timer st)
    (loading_timer st) (mounted st) (pending_ping st) (pending_info st)
    (invoked st).

Definition set_metadata_timer (v : option Z) (st : State) : State :=
  Build_State (storeData st) (machine_id st) (machine_name st)
    (machine_icon st) (is_active st) (is_error st) (is_loading st)
    (error_message st) (machineInfo st) (now st) (health_timer st) v
    (loading_timer st) (mounted st) (pending_ping st) (pending_info st)
    (invoked st).

Definition set_loading_timer (v : option Z) (st : State) : State :=
  Build_State (storeData st) (machine_id st) (machine_name st)
    (machine_icon st) (is_active st) (is_error st) (is_loading st)
    (error_message st) (machineInfo st) (now st) (health_timer st)
    (metadata_timer st) v (mounted st) (pending_ping st) (pending_info st)
    (invoked st).

Definition set_mounted (v : bool) (st : State) : State :=
  Build_State (storeData st) (machine_id st) (machine_name st)
    (machine_icon st) (is_active st) (is_error st) (is_loading st)
    (error_message st) (machineInfo st) (now st) (health_timer st)
    (metadata_timer st) (loading_timer st) v (pending_ping st)
    (pending_info st) (invoked st).

Definition set_pending_ping (v : nat) (st : State) : State :=
  Build_State (storeData st) (machine_id st) (machine_name st)
    (machine_icon st) (is_active st) (is_error st) (is_loading st)
    (error_message st) (machineInfo st) (now st) (health_timer st)
    (metadata_timer st) (loading_timer st) (mounted st) v (pending_info st)
    (invoked st).

Definition set_pending_info (v : list InfoStage) (st : State) : State :=
  Build_State (storeData st) (machine_id st) (machine_name st)
    (machine_icon st) (is_active st) (is_error st) (is_loading st)
    (error_message st) (machineInfo st) (now st) (health_timer st)
    (metadata_timer st) (loading_timer st) (mounted st) (pending_ping st) v
    (invoked st).

Definition set_invoked (v : list Call) (st : State) : State :=
  Build_State (storeData st) (machine_id st) (machine_name st)
    (machine_icon st) (is_active st) (is_error st) (is_loading st)
    (error_message st) (machineInfo st) (now st) (health_timer st)
    (metadata_timer st) (loading_timer st) (mounted st) (pending_ping st)
    (pending_info st) v.

Definition remove_nth {A : Type} (i : nat) (l : list A) : list A :=
  firstn i l ++ skipn (S i) l.

Definition replace_nth {A : Type} (i : nat) (x : A) (l : list A) : list A :=
  firstn i l ++ x :: skipn (S i) l.

(** Truthiness of a JavaScript string. *)
Definition truthy (s : string) : bool :=
  negb (String.eqb s "").

(** [check_active_status] up to its [await]. *)
Definition check_active_status (st : State) : State :=
  set_invoked (invoked st ++ [get_ping_status])
    (set_pending_ping (S (pending_ping st)) st).

(** The rest of [check_active_status]. *)
Definition check_active_status_settled (r : Settled PingData) (st : State)
  : State :=
  let st := set_pending_ping (Nat.pred (pending_ping st)) st in
  match r with
  | Resolved data => set_is_active (String.eqb (code data) "success") st
  | Rejected _ =>
      set_error_message
        "Machine agent not running or there is no internet connectivity"
        (set_is_error true (set_is_active false st))
  end.

(** [get_machine_data] up to the first [await] of [get_machine_info]. *)
Definition get_machine_data (st : State) : State :=
  set_invoked (invoked st ++ [get_machine_info "identity.machine.name"])
    (set_pending_info (pending_info st ++ [AwaitName]) st).

(** The rest of [get_machine_data], one settled [invoke] at a time.  The
    object built by the service layer has no [id] property, so
    [machine_id] becomes undefined. *)
Definition get_machine_data_settled (i : nat) (stage : InfoStage)
  (r : Settled InfoData) (st : State) : State :=
  match stage, r with
  | AwaitName, Resolved data =>
      set_invoked (invoked st ++ [get_machine_info "identity.machine.icon_url"])
        (set_pending_info
           (replace_nth i (AwaitIcon (value data)) (pending_info st)) st)
  | AwaitIcon name_value, Resolved data =>
      let st := set_pending_info (remove_nth i (pending_info st)) st in
      let st := set_machine_id None st in
      let st := set_machine_name
                  (if truthy name_value then name_value else "My Machine") st in
      set_machine_icon (value data) st
  | _, Rejected _ =>
      set_pending_info (remove_nth i (pending_info st)) st
  end.

(** [$: if (machine_name || machine_icon) machineInfo.set({...})]. *)
Definition reactive_store (st : State) : State :=
  if truthy (machine_name st) || truthy (machine_icon st)
  then set_machineInfo
         {| id := id (storeData st);
            name := Some (machine_name st);
            icon := Some (machine_icon st) |} st
  else st.

(** [$: if (is_error) is_loading = false]. *)
Definition reactive_loading (st : State) : State :=
  if is_error st then set_is_loading false st else st.

(** A reactive statement re-runs after a task only if a variable it reads
    changed, and only while the component is mounted. *)
Definition flush (old new : State) : State :=
  if mounted new
  then
    let st :=
      if negb (String.eqb (machine_name old) (machine_name new))
         || negb (String.eqb (machine_icon old) (machine_icon new))
      then reactive_store new else new in
    if negb (Bool.eqb (is_error old) (is_error new))
    then reactive_loading st else st
  else new.

Definition task (callback : State -> State) (st : State) : State :=
  flush st (callback st).

(** The page registers no [onDestroy] hook and keeps no handle of its
    intervals: destruction only detaches the component. *)
Definition onDestroy (st : State) : State :=
  set_mounted false st.

Section Cadence.

(** Period of the metadata interval: 1200 ms on this page, 7000 ms on its
    earlier variant. *)
Variable period : Z.

(** The state once the script has run with the store holding [store]:
    variables initialised, both intervals armed, the reactive statements
    evaluated once, and [onMount] run. *)
Definition script (store : MachineDataType) : State :=
  {| storeData := store; machine_id := Some "-";
     machine_name := "My Machine"; machine_icon := "";
     is_active := false; is_error := false; is_loading := true;
     error_message := "";
     machineInfo := store;
     now := 0;
     health_timer := Some 10000; metadata_timer := Some period;
     loading_timer := None;
     mounted := true; pending_ping := 0%nat; pending_info := [];
     invoked := [] |}.

Definition onMount (st : State) : State :=
  get_machine_data
    (set_loading_timer (Some (now st + 3000)) (check_active_status st)).

Definition boot (store : MachineDataType) : State :=
  onMount (reactive_loading (reactive_store (script store))).

Inductive Event : Type :=
| Elapse (d : Z)
| Fire_health_timer
| Fire_metadata_timer
| Fire_loading_timer
| PingSettled (r : Settled PingData)
| InfoSettled (i : nat) (r : Settled InfoData)
| Destroy.

Definition step (st : State) (e : Event) : option State :=
  match e with
  | Elapse d =>
      if (0 <? d)
         && not_overdue (now st + d) (health_timer st)
         && not_overdue (now st + d) (metadata_timer st)
         && not_overdue (now st + d) (loading_timer st)
      then Some (set_now (now st + d) st)
      else None
  | Fire_health_timer =>
      if is_due (now st) (health_timer st)
      then Some (task check_active_status
                   (set_health_timer (Some (now st + 10000)) st))
      else None
  | Fire_metadata_timer =>
      if is_due (now st) (metadata_timer st)
      then Some (task get_machine_data
                   (set_metadata_timer (Some (now st + period)) st))
      else None
  | Fire_loading_timer =>
      if is_due (now st) (loading_timer st)
      then Some (task (set_is_loading false) (set_loading_timer None st))
      else None
  | PingSettled r =>
      if (0 <? pending_ping st)%nat
      then Some (task (check_active_status_settled r) st)
      else None
  | InfoSettled i r =>
      match nth_error (pending_info st) i with
      | Some stage => Some (task (get_machine_data_settled i stage r) st)
      | None => None
      end
  | Destroy =>
      if mounted st then Some (onDestroy st) else None
  end.

End Cadence.

(** The store as the previous screen leaves it. *)
Definition configured : MachineDataType :=
  {| id := Some "dev-123"; name := None; icon := None |}.

(** The screen is torn down right after its first health check
    succeeded; ten seconds later the health interval runs and the agent
    does not answer.  In between, the metadata interval (1200 ms) and
    the loading timer run as well. *)
Definition torn_down : list Event :=
  [PingSettled (Resolved {| code := "success" |}); Destroy;
   Elapse 1200; Fire_metadata_timer; Elapse 1200; Fire_metadata_timer;
   Elapse 600; Fire_loading_timer; Elapse 600; Fire_metadata_timer;
   Elapse 1200; Fire_metadata_timer; Elapse 1200; Fire_metadata_timer;
   Elapse 1200; Fire_metadata_timer; Elapse 1200; Fire_metadata_timer;
   Elapse 1200; Fire_metadata_timer; Elapse 400; Fire_health_timer;
   PingSettled (Rejected "agent unreachable")].

(** What an onlooker can see of the page: its flags, its message, the
    calls it has made and the intervals still armed. *)
Definition observe (st : State)
  : bool * bool * bool * string * list Call * option Z * option Z :=
  (mounted st, is_active st, is_error st, error_message st, invoked st,
   health_timer st, metadata_timer st).

(** The states the page can be in, for a given period of the metadata
    interval and a given content of the store on entry. *)
Definition reachable (period : Z) (store : MachineDataType) : State -> Prop :=
  Js.reachable (step period) (boot period store).

(** What the page keeps in every reachable state: the displayed name is
    never empty; the store keeps the id it had on entry and, while the
    page is mounted, carries the displayed name and icon; the loading
    timer is armed for 3000 ms until it fires, after which the loading
    flag is down; and on the mounted page the loading flag is down
    whenever the error flag is up. *)
Record Mirror (store : MachineDataType) (st : State) : Prop := {
  mirror_storeData : storeData st = store;
  mirror_name : truthy (machine_name st) = true;
  mirror_id : id (machineInfo st) = id store;
  mirror_store :
    mounted st = true ->
    machineInfo st =
      {| id := id store;
         name := Some (machine_name st);
         icon := Some (machine_icon st) |};
  mirror_loading :
    match loading_timer st with
    | Some d => d = 3000 /\ 0 <= now st <= 3000
    | None => 3000 <= now st /\ is_loading st = false
    end;
  mirror_error : mounted st = true -> is_error st = true -> is_loading st = false
}.

(** The agent answers nothing: no [get_machine_info] call succeeds. *)
Definition all_info_fails (e : Event) : bool :=
  match e with
  | InfoSettled _ (Resolved _) => false
  | _ => true
  end.

(** The agent stops answering after the first refresh: the health check
    of 10000 ms fails on the mounted page. *)
Definition agent_stops : list Event :=
  [PingSettled (Resolved {| code := "success" |});
   InfoSettled 0 (Resolved {| value := "bench-7" |});
   InfoSettled 0 (Resolved {| value := "" |});
   Elapse 1200; Fire_metadata_timer; Elapse 1200; Fire_metadata_timer;
   Elapse 600; Fire_loading_timer; Elapse 600; Fire_metadata_timer;
   Elapse 1200; Fire_metadata_timer; Elapse 1200; Fire_metadata_timer;
   Elapse 1200; Fire_metadata_timer; Elapse 1200; Fire_metadata_timer;
   Elapse 1200; Fire_metadata_timer; Elapse 400; Fire_health_timer].

Definition after (evs : list Event) : State :=
  match run (step 1200) (boot 1200 configured) evs with
  | Some st => st
  | None => boot 1200 configured
  end.

End MachineInfo.


(** ** The landing page: provisioned already, or pair now *)

Module Landing.

Inductive Call : Type :=
| get_machine_provision_status
| get_machine_id
| exit_app.

(** Responses of [get_machine_provision_status] and [get_machine_id]. *)
Record ProvisionStatusData : Type := { status : bool }.
Record MachineIdData : Type := { machine_id : string }.

Record State : Type := {
  machineInfo : MachineDataType;     (* the shared store *)
  pending_status : nat;              (* check_machine_provision_status() awaited *)
  pending_machine_id : nat;          (* get_machine_id() awaited *)
  toasts : list string;              (* toast.error(...) *)
  invoked : list Call;
  navigated : list Route
}.

Definition invoke (c : Call) (st : State) : State :=
  {| machineInfo := machineInfo st; pending_status := pending_status st;
     pending_machine_id := pending_machine_id st; toasts := toasts st;
     invoked := invoked st ++ [c]; navigated := navigated st |}.

Definition goto (r : Route) (st : State) : State :=
  {| machineInfo := machineInfo st; pending_status := pending_status st;
     pending_machine_id := pending_machine_id st; toasts := toasts st;
     invoked := invoked st; navigated := navigated st ++ [r] |}.

Definition toast_error (message : string) (st : State) : State :=
  {| machineInfo := machineInfo st; pending_status := pending_status st;
     pending_machine_id := pending_machine_id st;
     toasts := toasts st ++ [message];
     invoked := invoked st; navigated := navigated st |}.

Definition set_machineInfo (v : MachineDataType) (st : State) : State :=
  {| machineInfo := v; pending_status := pending_status st;
     pending_machine_id := pending_machine_id st; toasts := toasts st;
     invoked := invoked st; navigated := navigated st |}.

Definition set_pending_status (v : nat) (st : State) : State :=
  {| machineInfo := machineInfo st; pending_status := v;
     pending_machine_id := pending_machine_id st; toasts := toasts st;
     invoked := invoked st; navigated := navigated st |}.

Definition set_pending_machine_id (v : nat) (st : State) : State :=
  {| machineInfo := machineInfo st; pending_status := pending_status st;
     pending_machine_id := v; toasts := toasts st;
     invoked := invoked st; navigated := navigated st |}.

(** [goNext] up to its first [await]. *)
Definition goNext (st : State) : State :=
  invoke get_machine_provision_status
    (set_pending_status (S (pending_status st)) st).

(** [goNext] from the settlement of [check_machine_provision_status] up
    to the second [await], or to its end. *)
Definition provision_status_settled (r : Settled ProvisionStatusData)
  (st : State) : State :=
  let st := set_pending_status (Nat.pred (pending_status st)) st in
  match r with
  | Resolved data =>
      if status data
      then invoke get_machine_id
             (set_pending_machine_id (S (pending_machine_id st)) st)
      else goto check_internet st
  | Rejected error => toast_error error st
  end.

(** The rest of [goNext], once [get_machine_id] has settled. *)
Definition machine_id_settled (r : Settled MachineIdData) (st : State) : State :=
  let st := set_pending_machine_id (Nat.pred (pending_machine_id st)) st in
  match r with
  | Resolved data =>
      goto machine_info
        (set_machineInfo
           {| id := Some (machine_id data); name := None; icon := None |} st)
  | Rejected _ => toast_error "Agent is not running" st
  end.

(** [goBack]. *)
Definition goBack (st : State) : State := invoke exit_app st.

(** The page as first shown, the store still empty. *)
Definition boot : State :=
  {| machineInfo := {| id := None; name := None; icon := None |};
     pending_status := 0%nat; pending_machine_id := 0%nat;
     toasts := []; invoked := []; navigated := [] |}.

Inductive Event : Type :=
| ClickNext
| ClickBack
| ProvisionStatusSettled (r : Settled ProvisionStatusData)
| MachineIdSettled (r : Settled MachineIdData).

Definition step (st : State) (e : Event) : option State :=
  match e with
  | ClickNext => Some (goNext st)
  | ClickBack => Some (goBack st)
  | ProvisionStatusSettled r =>
      if (0 <? pending_status st)%nat
      then Some (provision_status_settled r st)
      else None
  | MachineIdSettled r =>
      if (0 <? pending_machine_id st)%nat
      then Some (machine_id_settled r st)
      else None
  end.

Definition reachable : State -> Prop := Js.reachable step boot.

Definition after (evs : list Event) : State :=
  match run step boot evs with
  | Some st => st
  | None => boot
  end.

(** How many times [goNext] has been started. *)
Definition clicks (st : State) : nat :=
  List.length (filter (fun c => match c with
                          | get_machine_provision_status => true
                          | _ => false
                          end) (invoked st)).

(** What the landing page keeps in every reachable state: every started
    [goNext] is either still waiting on one of its two calls or has
    ended in exactly one navigation or one toast; the store is written
    only together with a navigation to the configured screen; and the
    page navigates nowhere else than to that screen and to the
    connectivity check. *)
Record Inv (st : State) : Prop := {
  inv_accounted :
    clicks st =
    (pending_status st + pending_machine_id st
     + List.length (navigated st) + List.length (toasts st))%nat;
  inv_store :
    match id (machineInfo st) with
    | Some _ => In machine_info (navigated st)
    | None => ~ In machine_info (navigated st)
    end;
  inv_routes :
    forall r, In r (navigated st) -> r = machine_info \/ r = check_internet;
  inv_fields : name (machineInfo st) = None /\ icon (machineInfo st) = None
}.

(** The identity delivered by the last successful [get_machine_id] of a
    sequence of events, if any. *)
Fixpoint last_machine_id (evs : list Event) : option string :=
  match evs with
  | [] => None
  | e :: rest =>
      match last_machine_id rest with
      | Some x => Some x
      | None =>
          match e with
          | MachineIdSettled (Resolved data) => Some (machine_id data)
          | _ => None
          end
      end
  end.

(** A provisioned device: both calls succeed. *)
Definition provisioned : list Event :=
  [ClickNext;
   ProvisionStatusSettled (Resolved {| status := true |});
   MachineIdSettled (Resolved {| machine_id := "dev-123" |})].

(** A provisioned device whose agent stops answering: the status call
    succeeds, the identity call fails. *)
Definition agent_lost : list Event :=
  [ClickNext;
   ProvisionStatusSettled (Resolved {| status := true |});
   MachineIdSettled (Rejected "transport error")].

End Landing.


(** * Properties *)

(** ** Runs and reachability *)

Module JsFacts.

Lemma run_app {S E : Type} (step : S -> E -> option S) evs1 evs2 st :
  run step st (evs1 ++ evs2) =
  match run step st evs1 with
  | Some st1 => run step st1 evs2
  | None => None
  end.
Proof.
  revert st. induction evs1 as [|e evs1 IH]; intros st; simpl; [reflexivity|].
  destruct (step st e); [apply IH | reflexivity].
Qed.

Lemma run_from_reachable {S E : Type} (step : S -> E -> option S) boot evs :
  forall st st',
    reachable step boot st -> run step st evs = Some st' ->
    reachable step boot st'.
Proof.
  induction evs as [|e evs IH]; simpl; intros st st' Hst H.
  - injection H as <-. exact Hst.
  - destruct (step st e) as [s1|] eqn:Hs1; [|discriminate].
    apply (IH s1); [econstructor; eassumption | exact H].
Qed.

Lemma run_reachable {S E : Type} (step : S -> E -> option S) boot evs st :
  run step boot evs = Some st -> reachable step boot st.
Proof. apply run_from_reachable. constructor. Qed.

(** An invariant of the steps that holds of the boot state holds of every
    reachable state. *)
Lemma reachable_invariant {S E : Type} (step : S -> E -> option S) boot
  (P : S -> Prop) :
  P boot ->
  (forall st e st', P st -> step st e = Some st' -> P st') ->
  forall st, reachable step boot st -> P st.
Proof.
  intros Hboot Hstep st Hst. induction Hst; [exact Hboot|].
  eapply Hstep; eassumption.
Qed.

End JsFacts.

(** ** The connectivity check *)

Module CheckInternetFacts.
Import CheckInternet.

Lemma before_check st : reachable st -> waiting st.
Proof.
  apply JsFacts.reachable_invariant; [unfold waiting; simpl; repeat split; lia|].
  intros [aip nw ct pp mt nav] e st' Hinv H.
  unfold waiting in *. destruct e as [d| |r|]; simpl in *.
  - destruct (Z.ltb_spec 0 d); [|discriminate].
    destruct ct as [t|]; simpl in H;
      [destruct (Z.leb_spec (nw + d) t); [|discriminate]|];
      injection H as <-; simpl; intuition lia.
  - destruct ct as [t|]; simpl in H; [|discriminate].
    destruct (Z.eqb_spec t nw); [|discriminate].
    injection H as <-. simpl. lia.
  - destruct pp; [|discriminate]. injection H as <-.
    destruct ct as [t|]; [destruct Hinv as (_ & _ & Hc & _); discriminate|].
    destruct r as [data|error]; simpl;
      [destruct (String.eqb (code data) "success")|]; simpl; exact Hinv.
  - destruct mt; [|discriminate]. injection H as <-.
    destruct ct as [t|]; simpl; intuition congruence.
Qed.

(** The check is made once, 2000 ms after entry, and only if the page
    has not been destroyed in the meantime. *)
Lemma check_made_at_2000 st st' :
  reachable st ->
  step st FireCheck = Some st' ->
  now st = 2000 /\ pending_ping st' = mounted st /\ check_timer st' = None.
Proof.
  intros Hst H. pose proof (before_check _ Hst) as Hinv.
  unfold waiting in Hinv. unfold step in H. destruct (check_timer st) as [d|] eqn:E; simpl in H;
    [|discriminate].
  destruct (Z.eqb_spec d (now st)); [|discriminate]. injection H as <-.
  destruct Hinv as (-> & _ & Hp & Ha & _).
  unfold on_check_timer; simpl. rewrite Ha, Hp.
  repeat split; [congruence | destruct (mounted st); reflexivity].
Qed.

(** C9, as amended.  When the awaited [check_ping_status] settles, the
    page navigates exactly once: to the pairing screen if the call
    succeeded with code ["success"], to the no-connectivity screen if it
    succeeded with any other code, and to the setup-failed screen,
    carrying the error, if the agent call itself failed. *)
Theorem ping_routing st r st' :
  step st (PingSettled r) = Some st' ->
  navigated st' =
    navigated st ++
      [match r with
       | Resolved data =>
           if String.eqb (code data) "success" then link_machine else no_internet
       | Rejected error => setup_failed error
       end]
  /\ (ping_ok r = true <-> navigated st' = navigated st ++ [link_machine])
  /\ apiInProgress st' = false.
Proof.
  unfold step. destruct (pending_ping st); [|discriminate].
  intros H. injection H as <-.
  destruct r as [data|error]; simpl.
  - destruct (String.eqb (code data) "success"); simpl;
      (split; [reflexivity | split; [|reflexivity]]).
    + split; reflexivity.
    + split; [discriminate|].
      intros H. apply app_inv_head in H. discriminate.
  - split; [reflexivity | split; [|reflexivity]].
    split; [discriminate|].
    intros H. apply app_inv_head in H. discriminate.
Qed.

Lemma awaiting_ping_reached :
  run step boot [Elapse 2000; FireCheck] = Some awaiting_ping.
Proof. reflexivity. Qed.

Lemma ping_routing_witness :
  navigated (on_ping_settled (Resolved {| code := "failure" |}) awaiting_ping)
  = [no_internet].
Proof.
  apply (ping_routing awaiting_ping (Resolved {| code := "failure" |})).
  reflexivity.
Defined.

(** C9, as the specification words it, fails: an agent error is routed to
    the setup-failed screen, not to the no-connectivity screen. *)
Lemma agent_error_routes_to_setup_failed :
  ~ failure_routes_to_no_internet.
Proof.
  intros H.
  specialize (H awaiting_ping (Rejected "agent unreachable") _
                (JsFacts.run_reachable _ _ _ _ awaiting_ping_reached) eq_refl).
  discriminate H.
Qed.

Lemma after_check st : reachable st -> answered st.
Proof.
  intros Hst.
  assert (G : waiting st /\ answered st); [|apply G].
  revert st Hst.
  apply (JsFacts.reachable_invariant step boot
           (fun st => waiting st /\ answered st)).
  { split; [unfold waiting; simpl; repeat split; lia | exact I]. }
  intros [aip nw ct pp mt nav] e st' [Hw Ha] H.
  unfold waiting, answered in *. destruct e as [d| |r|]; simpl in *.
  - destruct (Z.ltb_spec 0 d); [|discriminate].
    destruct ct as [t|]; simpl in H;
      [destruct (Z.leb_spec (nw + d) t); [|discriminate]|];
      injection H as <-; simpl; split; auto; intuition lia.
  - destruct ct as [t|]; simpl in H; [|discriminate].
    destruct (Z.eqb_spec t nw); [|discriminate]. injection H as <-.
    destruct Hw as (-> & _ & -> & _ & ->). simpl.
    split; [lia|]. destruct aip; simpl; auto.
  - destruct pp; [|discriminate]. injection H as <-.
    destruct ct as [t|]; [destruct Hw as (_ & _ & Hc & _); discriminate|].
    rewrite Ha.
    destruct r as [data|error]; simpl;
      [destruct (String.eqb (code data) "success")|]; simpl; auto.
  - destruct mt; [|discriminate]. injection H as <-.
    destruct ct as [t|]; simpl; [|auto].
    split; [intuition congruence | exact I].
Qed.

Lemma abandoned_step st e st' :
  abandoned st -> step st e = Some st' ->
  abandoned st' /\ (forall r, e <> PingSettled r).
Proof.
  intros (M & A & P & N) H.
  destruct e as [d| |r|]; simpl in H.
  - destruct (_ && _); [|discriminate]. injection H as <-.
    split; [repeat split; assumption | discriminate].
  - destruct (is_due _ _); [|discriminate]. injection H as <-.
    split; [|discriminate].
    unfold abandoned, on_check_timer; simpl. rewrite A. auto.
  - rewrite P in H. discriminate.
  - rewrite M in H. discriminate.
Qed.

(** X9.  The connectivity check is one-shot: in every reachable state the
    page has navigated at most once, and only after the 2000 ms timer
    has fired and the call it made has settled; the timer fires at
    2000 ms exactly and calls the agent only if the page is still
    mounted. *)
Theorem check_is_one_shot st :
  reachable st ->
  (List.length (navigated st) <= 1)%nat
  /\ (navigated st <> [] ->
      2000 <= now st /\ check_timer st = None /\ pending_ping st = false)
  /\ (forall st',
        step st FireCheck = Some st' ->
        now st = 2000 /\ pending_ping st' = mounted st
        /\ check_timer st' = None).
Proof.
  intros Hst.
  pose proof (before_check _ Hst) as Hw. pose proof (after_check _ Hst) as Ha.
  unfold waiting, answered in *.
  split; [|split].
  - destruct (check_timer st) as [t|].
    + destruct Hw as (_ & _ & _ & _ & ->). simpl. lia.
    + destruct (pending_ping st); [rewrite Ha; simpl; lia | exact Ha].
  - intros N. destruct (check_timer st) as [t|].
    + destruct Hw as (_ & _ & _ & _ & E). contradiction.
    + repeat split; auto.
      destruct (pending_ping st); [contradiction | reflexivity].
  - intros st' H. unfold step in H.
    destruct (check_timer st) as [d|] eqn:E; simpl in H; [|discriminate].
    destruct (Z.eqb_spec d (now st)); [|discriminate]. injection H as <-.
    destruct Hw as (-> & _ & Hp & Hap & _).
    unfold on_check_timer; simpl. rewrite Hap, Hp.
    repeat split; [congruence | destruct (mounted st); reflexivity].
Qed.

Lemma check_is_one_shot_witness :
  (List.length (navigated awaiting_ping) <= 1)%nat.
Proof.
  exact (proj1 (check_is_one_shot awaiting_ping
                  (JsFacts.run_reachable _ _ _ _ awaiting_ping_reached))).
Defined.

(** X10.  If the page is destroyed before its timer has fired, the check
    is never made: whatever follows, the agent is not called, no
    response can arrive and the page navigates nowhere, although the
    timer itself still fires. *)
Theorem destroyed_before_check_never_calls st st' evs st'' :
  reachable st ->
  check_timer st <> None ->
  step st Destroy = Some st' ->
  run step st' evs = Some st'' ->
  pending_ping st'' = false
  /\ navigated st'' = []
  /\ check_timer st' = check_timer st
  /\ forall r, ~ In (PingSettled r) evs.
Proof.
  intros Hst Harmed H Hrun.
  pose proof (before_check _ Hst) as Hw. unfold waiting in Hw.
  assert (A : abandoned st' /\ check_timer st' = check_timer st).
  { simpl in H. destruct (mounted st); [|discriminate]. injection H as <-.
    destruct (check_timer st) as [t|] eqn:Et0; [|contradiction].
    destruct Hw as (_ & _ & Hp & _ & Hn).
    unfold abandoned; simpl. auto. }
  destruct A as [A Et]. clear H.
  assert (G : abandoned st'' /\ forall r, ~ In (PingSettled r) evs).
  { clear Et. revert st' A Hrun. induction evs as [|e evs IH]; simpl; intros s A Hrun.
    - injection Hrun as <-. split; [exact A | intros r []].
    - destruct (step s e) as [s1|] eqn:Hs1; [|discriminate].
      destruct (abandoned_step _ _ _ A Hs1) as [A1 Ne].
      destruct (IH _ A1 Hrun) as [A2 Nin]. split; [exact A2|].
      intros r [E | I]; [exact (Ne r E) | exact (Nin r I)]. }
  destruct G as [(_ & _ & P & N) Nin]. auto.
Qed.

Lemma destroyed_before_check_never_calls_witness :
  pending_ping
    (match run step boot (left_early ++ [Elapse 1500; FireCheck]) with
     | Some st => st
     | None => boot
     end) = false.
Proof.
  assert (Hreach : reachable
                     {| apiInProgress := true; now := 500;
                        check_timer := Some 2000; pending_ping := false;
                        mounted := true; navigated := [] |}).
  { apply (JsFacts.run_reachable step boot [Elapse 500]). reflexivity. }
  refine (proj1 (destroyed_before_check_never_calls _ _
                   [Elapse 1500; FireCheck] _ Hreach _ eq_refl eq_refl)).
  discriminate.
Defined.

End CheckInternetFacts.

(** ** Identity resolution *)

Module ConfigureMachineFacts.
Import ConfigureMachine.

Lemma race_handlers_goto s st :
  race_handlers s st = goto (route_for s) st.
Proof.
  destruct s as [data|error]; simpl; [reflexivity|].
  destruct (String.eqb error "Timeout"); reflexivity.
Qed.

Lemma race_inv_boot : Inv boot.
Proof. split; simpl; repeat split; lia. Qed.

Ltac step_cases H :=
  match type of H with
  | step ?st ?e = Some _ =>
      destruct st as [gmid ct rc oc mi nw tt rt pm nav];
      destruct e as [d| | |r]; simpl in H
  end.

Ltac by_route s :=
  destruct s as [?data|?error]; simpl;
  [|let Hq := fresh "Hq" in
    destruct (String.eqb error "Timeout") eqn:Hq; simpl; rewrite ?Hq].

Ltac finish :=
  split; simpl;
  try match goal with
      | Hq : String.eqb _ _ = _ |- _ => rewrite ?Hq
      end;
  intuition (auto; try lia; try congruence).

Lemma race_inv_step st e st' :
  Inv st -> step st e = Some st' -> Inv st'.
Proof.
  intros [Hr Ht Hp Hrace Hstore] H. step_cases H; simpl in *.
  - (* Elapse *)
    destruct (0 <? d) eqn:Hd; [|discriminate]. apply Z.ltb_lt in Hd.
    destruct tt as [t|], rt as [r|]; simpl in H;
      repeat match type of H with
        | context [?a <=? ?b] => destruct (Z.leb_spec a b); simpl in H
        end; try discriminate; injection H as <-;
      split; simpl; intuition lia.
  - (* the deadline fires *)
    destruct tt as [t|]; simpl in H; [|discriminate].
    destruct (Z.eqb_spec t nw); [|discriminate]. injection H as <-.
    destruct Ht as (-> & Hnw & ->).
    destruct rt as [r|].
    { destruct Hr as (-> & Hnw' & _). lia. }
    destruct Hr as (-> & Hnw'). simpl in *.
    unfold settle_race, timeout_fires; simpl.
    destruct oc as [s|]; simpl.
    + finish.
    + destruct Hrace as (-> & _ & ->). simpl in *. finish.
  - (* the race starts *)
    destruct rt as [r|]; simpl in H; [|discriminate].
    destruct (Z.eqb_spec r nw); [|discriminate]. injection H as <-.
    destruct Hr as (-> & Hnw & ->). destruct Hrace as (-> & ->).
    unfold settle_race, race_starts; simpl.
    destruct gmid as [s|].
    + by_route s; finish.
    + destruct tt as [t|]; simpl in *.
      * destruct Ht as (-> & Hnw' & ->). finish.
      * lia.
  - (* get_machine_id() settles *)
    simpl in Hp. destruct pm; [|discriminate]. injection H as <-.
    destruct gmid as [s|]; [discriminate|].
    unfold settle_race, machine_id_settled.
    destruct rc; simpl.
    + destruct oc as [s|].
      * destruct r; finish.
      * destruct Hrace as (_ & _ & ->). by_route r; finish.
    + destruct r; finish.
Qed.

Lemma race_reachable_inv st : reachable st -> Inv st.
Proof.
  apply JsFacts.reachable_invariant; [exact race_inv_boot | exact race_inv_step].
Qed.

Lemma race_inv_run evs : forall st st',
  Inv st -> run step st evs = Some st' -> Inv st'.
Proof.
  induction evs as [|e evs IH]; simpl; intros st st' Hst H.
  - injection H as <-. exact Hst.
  - destruct (step st e) as [s1|] eqn:Hs1; [|discriminate].
    apply (IH s1); [eapply race_inv_step; eassumption | exact H].
Qed.

(** Once the race is settled, no event changes its settlement or
    navigates again. *)
Lemma settled_step s st e st' :
  outcome st = Some s -> step st e = Some st' ->
  outcome st' = Some s /\ navigated st' = navigated st.
Proof.
  intros Ho H. step_cases H; simpl in *; subst oc.
  - destruct (_ && _); [|discriminate]. injection H as <-. auto.
  - destruct (is_due nw tt); [|discriminate]. injection H as <-.
    unfold settle_race; simpl. destruct rc; auto.
  - destruct (is_due nw rt); [|discriminate]. injection H as <-.
    unfold settle_race; simpl. auto.
  - destruct pm; [|discriminate]. injection H as <-.
    unfold settle_race. destruct r; simpl; destruct rc; auto.
Qed.

Lemma settled_run s evs : forall st st',
  outcome st = Some s -> run step st evs = Some st' ->
  outcome st' = Some s /\ navigated st' = navigated st.
Proof.
  induction evs as [|e evs IH]; simpl; intros st st' Ho H.
  - injection H as <-. auto.
  - destruct (step st e) as [s1|] eqn:Hs1; [|discriminate].
    destruct (settled_step _ _ _ _ Ho Hs1) as [Ho1 Hn1].
    destruct (IH _ _ Ho1 H) as [Ho2 Hn2]. split; congruence.
Qed.

(** A call that settled before the deadline keeps deciding the race. *)
Lemma decided_step s st e st' :
  Inv st -> decided s st -> step st e = Some st' -> decided s st'.
Proof.
  intros [Hr Ht Hp Hrace Hstore] [Hg Hd] H. step_cases H; simpl in *; subst gmid.
  - destruct (_ && _); [|discriminate]. injection H as <-. split; auto.
  - destruct tt as [t|]; simpl in H; [|discriminate].
    destruct (Z.eqb_spec t nw); [|discriminate]. injection H as <-.
    destruct Ht as (-> & Hnw & ->).
    destruct rt as [r|].
    { destruct Hr as (-> & Hnw' & _). lia. }
    destruct Hr as (-> & _). destruct Hd as (-> & ->).
    split; simpl; auto.
  - destruct rt as [r|]; simpl in H; [|discriminate].
    destruct (Z.eqb_spec r nw); [|discriminate]. injection H as <-.
    destruct Hr as (-> & _ & ->). destruct Hd as (-> & ->).
    unfold settle_race; simpl. rewrite race_handlers_goto.
    split; simpl; auto.
  - subst pm. discriminate.
Qed.

Lemma decided_run s evs : forall st st',
  Inv st -> decided s st -> run step st evs = Some st' -> decided s st'.
Proof.
  induction evs as [|e evs IH]; simpl; intros st st' Hi Hd H.
  - injection H as <-. exact Hd.
  - destruct (step st e) as [s1|] eqn:Hs1; [|discriminate].
    apply (IH s1);
      [eapply race_inv_step | eapply decided_step | ]; eassumption.
Qed.

(** A call that settles while the deadline timer is armed decides the
    race. *)
Lemma settle_decides st r st' :
  Inv st -> timeout_timer st <> None ->
  step st (MachineIdSettled r) = Some st' -> decided r st'.
Proof.
  intros [Hr Ht Hp Hrace Hstore] Harmed H.
  destruct st as [gmid ct rc oc mi nw tt rt pm nav]; simpl in *.
  destruct pm; [|discriminate]. injection H as <-.
  destruct gmid as [s|]; [discriminate|].
  destruct tt as [t|]; [|congruence]. destruct Ht as (-> & _ & ->).
  unfold settle_race, machine_id_settled.
  destruct rc; simpl.
  - destruct oc as [s|].
    + destruct Hrace as (_ & [Hc | [_ Hc]]); discriminate.
    + destruct Hrace as (_ & _ & ->).
      by_route r; split; simpl; rewrite ?Hq; auto.
  - destruct Hrace as (-> & ->). destruct r; split; simpl; auto.
Qed.

(** The deadline timer is left alone by the settlement of the call. *)
Lemma settle_keeps_deadline st r st' :
  step st (MachineIdSettled r) = Some st' ->
  timeout_timer st' = timeout_timer st /\ checkTimeout st' = checkTimeout st.
Proof.
  intros H. destruct st as [gmid ct rc oc mi nw tt rt pm nav]; simpl in *.
  destruct pm; [|discriminate]. injection H as <-.
  unfold settle_race, machine_id_settled.
  destruct r as [data|error]; simpl; destruct rc; simpl; auto;
    destruct oc as [s|]; simpl; auto;
    (destruct (settle gmid _) as [s|] eqn:Hs;
     [ rewrite race_handlers_goto; auto
     | destruct gmid; discriminate ]).
Qed.

Lemma route_has_outcome s : exists o, outcome_of (route_for s) = Some o.
Proof.
  destruct s as [data|error]; simpl; [eauto|].
  destruct (String.eqb error "Timeout"); simpl; eauto.
Qed.

(** No navigation while the deadline timer is armed and nothing has
    settled the race; one navigation, to an outcome screen, otherwise. *)
Lemma one_navigation st :
  Inv st ->
  (navigated st = [] /\ timeout_timer st = Some 15000 /\ now st <= 15000)
  \/ exists r o, navigated st = [r] /\ outcome_of r = Some o.
Proof.
  intros [Hr Ht Hp Hrace Hstore].
  destruct (outcome st) as [s|] eqn:Ho.
  - right. destruct (route_has_outcome s) as [o Hro].
    exists (route_for s), o. split; [|exact Hro].
    destruct (raced st); [tauto | destruct Hrace; discriminate].
  - left.
    assert (Hnav : navigated st = []
                   /\ (raced st = true -> checkTimeout st = None))
      by (destruct (raced st); intuition congruence).
    destruct Hnav as [Hnav Hct]. split; [exact Hnav|].
    destruct (timeout_timer st) as [t|].
    + destruct Ht as (-> & Hnw & _). split; [reflexivity | lia].
    + destruct Ht as [Ht Hnw].
      destruct (race_timer st) as [r|]; [lia|].
      destruct Hr as [Hr _]. rewrite (Hct Hr) in Ht. discriminate.
Qed.

(** C1, as amended.  In every reachable state of identity resolution:
    - there is at most one navigation, to one of the three outcome
      screens, and exactly one once the 15000 ms deadline has fired;
    - if the call fails while the deadline timer is armed, with an error
      text other than the literal ["Timeout"], the only navigation, made
      when the race is called, is to the setup-failed screen with its
      error message;
    - if the deadline fires at 15000 ms with the call unsettled, the only
      navigation is to the timed-out screen, whatever happens later;
    - if the call succeeds while the deadline timer is armed, the id is
      stored in [machineInfo] and the only navigation, made when the race
      is called, is to the success screen;
    - the race is called 3000 ms after entry. *)
Theorem identity_resolution_outcome st :
  reachable st ->
  ((navigated st = [] /\ timeout_timer st = Some 15000 /\ now st <= 15000)
   \/ exists r o, navigated st = [r] /\ outcome_of r = Some o)
  /\ (forall error st' evs st'',
        timeout_timer st <> None ->
        error <> "Timeout" ->
        step st (MachineIdSettled (Rejected error)) = Some st' ->
        run step st' evs = Some st'' ->
        navigated st'' =
          if raced st''
          then [setup_failed "Fetching machine data failed, Please try again"]
          else [])
  /\ (forall st' evs st'',
        get_machine_id_data st = None ->
        step st Fire_timeout_timer = Some st' ->
        run step st' evs = Some st'' ->
        now st = 15000 /\ navigated st'' = [timeout_service])
  /\ (forall data st' evs st'',
        timeout_timer st <> None ->
        step st (MachineIdSettled (Resolved data)) = Some st' ->
        run step st' evs = Some st'' ->
        id (machineInfo st'') = Some (machine_id data)
        /\ navigated st'' = if raced st'' then [setup_success] else [])
  /\ (raced st = false -> race_timer st = Some 3000 /\ now st <= 3000).
Proof.
  intros Hst. pose proof (race_reachable_inv _ Hst) as Hi.
  repeat apply conj.
  - apply one_navigation. exact Hi.
  - intros error st' evs st'' Harmed Hne Hstep Hrun.
    pose proof (settle_decides _ _ _ Hi Harmed Hstep) as Hd.
    pose proof (decided_run _ _ _ _ (race_inv_step _ _ _ Hi Hstep) Hd Hrun) as [_ Hd'].
    simpl in Hd'. apply String.eqb_neq in Hne. rewrite Hne in Hd'.
    destruct (raced st''); tauto.
  - intros st' evs st'' Hg Hstep Hrun.
    destruct Hi as [Hr Ht Hp Hrace Hstore].
    destruct st as [gmid ct rc oc mi nw tt rt pm nav]; simpl in *. subst gmid.
    destruct tt as [t|]; simpl in Hstep; [|discriminate].
    destruct (Z.eqb_spec t nw); [|discriminate]. injection Hstep as <-.
    destruct Ht as (-> & Hnw & ->). split; [congruence|].
    destruct rt as [r|]; [destruct Hr as (-> & ? & _); lia|].
    destruct Hr as [-> _].
    destruct oc as [s|].
    { destruct Hrace as (_ & [Hc | [_ Hc]]); discriminate. }
    destruct Hrace as (_ & _ & ->).
    apply (settled_run (Rejected "Timeout")) in Hrun; [|reflexivity].
    destruct Hrun as [_ ->]. reflexivity.
  - intros data st' evs st'' Harmed Hstep Hrun.
    pose proof (settle_decides _ _ _ Hi Harmed Hstep) as Hd.
    pose proof (race_inv_step _ _ _ Hi Hstep) as Hi'.
    pose proof (decided_run _ _ _ _ Hi' Hd Hrun) as [Hg Hd'].
    pose proof (race_inv_run _ _ _ Hi' Hrun) as [_ _ _ _ Hstore].
    rewrite Hg in Hstore. rewrite Hstore. split; [reflexivity|].
    simpl in Hd'. destruct (raced st''); tauto.
  - intros Hraced. destruct Hi as [Hr _ _ _ _].
    destruct (race_timer st) as [r|].
    + destruct Hr as (-> & ? & _). split; [reflexivity | lia].
    + destruct Hr as [Hr _]. congruence.
Qed.

Lemma identity_resolution_outcome_witness :
  now (after [Elapse 3000; Fire_race_timer; Elapse 12000]) = 15000
  /\ navigated
       (after [Elapse 3000; Fire_race_timer; Elapse 12000; Fire_timeout_timer;
               MachineIdSettled (Resolved {| machine_id := "dev-123" |})])
     = [timeout_service].
Proof.
  assert (Hreach : reachable (after [Elapse 3000; Fire_race_timer; Elapse 12000])).
  { apply (JsFacts.run_reachable step boot
             [Elapse 3000; Fire_race_timer; Elapse 12000]).
    vm_compute. reflexivity. }
  destruct (identity_resolution_outcome _ Hreach) as (_ & _ & H & _).
  apply (H (after [Elapse 3000; Fire_race_timer; Elapse 12000;
                   Fire_timeout_timer])
           [MachineIdSettled (Resolved {| machine_id := "dev-123" |})]);
    vm_compute; reflexivity.
Defined.

(** C1, as the specification words it, fails: a call that fails before
    the deadline with the error text ["Timeout"] is routed to the
    timed-out screen. *)
Lemma failure_named_timeout_is_timed_out :
  ~ failure_before_deadline_is_failed.
Proof.
  intros H.
  destruct (H boot "Timeout" _ [Elapse 3000; Fire_race_timer] _
              (reach_boot _ _) ltac:(discriminate) eq_refl eq_refl eq_refl)
    as [message Hm].
  discriminate Hm.
Qed.

(** C3, as amended.  Success and the timed-out screen exclude each other
    in every reachable state.  When the call resolves while the deadline
    timer is armed, the timer stays armed for 15000 ms: it is not
    cancelled.  Whatever follows, the flow never navigates to the
    timed-out screen, and when the timer does fire it rejects
    [checkTimeout] without any further navigation. *)
Theorem success_excludes_timeout st :
  reachable st ->
  ~ (In setup_success (navigated st) /\ In timeout_service (navigated st))
  /\ forall data st',
       timeout_timer st <> None ->
       step st (MachineIdSettled (Resolved data)) = Some st' ->
       timeout_timer st' = Some 15000
       /\ forall evs st'',
            run step st' evs = Some st'' ->
            ~ In timeout_service (navigated st'')
            /\ forall st3,
                 step st'' Fire_timeout_timer = Some st3 ->
                 checkTimeout st3 = Some "Timeout"
                 /\ navigated st3 = navigated st''.
Proof.
  intros Hst. pose proof (race_reachable_inv _ Hst) as Hi. split.
  - destruct (one_navigation st Hi) as [(Hn & _) | (r & o & Hn & _)];
      rewrite Hn; simpl; [tauto|].
    intros [[-> | []] [Hc | []]]. discriminate.
  - intros data st' Harmed Hstep.
    destruct (settle_keeps_deadline _ _ _ Hstep) as [Htt _].
    pose proof (settle_decides _ _ _ Hi Harmed Hstep) as Hd.
    pose proof (race_inv_step _ _ _ Hi Hstep) as Hi'.
    split.
    { rewrite Htt. destruct Hi as [_ Ht _ _ _].
      destruct (timeout_timer st) as [t|]; [|congruence].
      destruct Ht as (-> & _). reflexivity. }
    intros evs st'' Hrun.
    pose proof (decided_run _ _ _ _ Hi' Hd Hrun) as [Hg Hd'].
    pose proof (race_inv_run _ _ _ Hi' Hrun) as Hi''.
    split.
    { simpl in Hd'. destruct (raced st''); destruct Hd' as [_ ->]; simpl; intuition discriminate. }
    intros st3 Hfire.
    pose proof (race_inv_step _ _ _ Hi'' Hfire) as [_ Ht3 _ _ _].
    assert (Htt3 : timeout_timer st3 = None /\ navigated st3 = navigated st'').
    { destruct Hi'' as [Hr Ht _ _ _].
      destruct st'' as [gmid ct rc oc mi nw tt rt pm nav]; simpl in *.
      destruct tt as [t|]; simpl in Hfire; [|discriminate].
      destruct (Z.eqb_spec t nw); [|discriminate]. injection Hfire as <-.
      destruct Ht as (-> & _ & ->).
      destruct rt as [r|]; [destruct Hr as (-> & ? & _); lia|].
      destruct Hr as [-> _]. destruct Hd' as [-> _].
      unfold settle_race; simpl. auto. }
    destruct Htt3 as [Htt3 Hnav]. rewrite Htt3 in Ht3.
    split; [apply Ht3 | exact Hnav].
Qed.

Lemma success_excludes_timeout_witness :
  timeout_timer (after [MachineIdSettled (Resolved {| machine_id := "dev-123" |})])
  = Some 15000.
Proof.
  pose proof (success_excludes_timeout boot (reach_boot _ _)) as [_ H].
  apply (H {| machine_id := "dev-123" |}); [discriminate | reflexivity].
Defined.

(** C3, as the specification words it, fails: the deadline timer is
    still armed after the call has resolved. *)
Lemma deadline_timer_survives_success :
  ~ deadline_cancelled_on_success.
Proof.
  intros H.
  specialize (H boot {| machine_id := "dev-123" |} _
                (reach_boot _ _) ltac:(discriminate) eq_refl).
  discriminate H.
Qed.

(** The stray deadline of the same run: it fires 15000 ms after entry,
    long after the success screen was requested, and is ignored. *)
Example stray_deadline_after_success :
  run step boot
    [MachineIdSettled (Resolved {| machine_id := "dev-123" |});
     Elapse 3000; Fire_race_timer; Elapse 12000; Fire_timeout_timer]
  = Some {| get_machine_id_data := Some (Resolved {| machine_id := "dev-123" |});
            checkTimeout := Some "Timeout"; raced := true;
            outcome := Some (Resolved {| machine_id := "dev-123" |});
            machineInfo := {| id := Some "dev-123"; name := None; icon := None |};
            now := 15000; timeout_timer := None; race_timer := None;
            pending_machine_id := false; navigated := [setup_success] |}.
Proof. reflexivity. Qed.

(** The race reads its inputs; it never settles them. *)
Lemma settle_race_keeps_call st :
  get_machine_id_data (settle_race st) = get_machine_id_data st.
Proof.
  unfold settle_race. destruct (raced st); [|reflexivity].
  destruct (outcome st); [reflexivity|].
  destruct (get_machine_id_data st) as [s|] eqn:E.
  - rewrite race_handlers_goto. simpl. exact E.
  - destruct (checkTimeout st); [|exact E].
    rewrite race_handlers_goto. simpl. exact E.
Qed.

(** X6.  Identity resolution navigates exactly when the race has been
    called and one of its inputs has settled: nothing is navigated to
    during the first 3000 ms, whatever the agent answers, and from then
    on the first settlement of the call or of the deadline is followed
    at once by the one navigation. *)
Theorem navigation_waits_for_race st :
  reachable st ->
  (navigated st = [] <->
   raced st = false
   \/ get_machine_id_data st = None /\ checkTimeout st = None)
  /\ (raced st = true <-> 3000 <= now st /\ race_timer st = None)
  /\ (navigated st <> [] -> 3000 <= now st).
Proof.
  intros Hst. destruct (race_reachable_inv _ Hst) as [Hr Ht Hp Hrace Hstore].
  assert (R : raced st = true <-> 3000 <= now st /\ race_timer st = None).
  { destruct (race_timer st) as [r|].
    - destruct Hr as (-> & Hn & ->). split; [discriminate | intros [_ E]; discriminate].
    - destruct Hr as [-> Hn]. tauto. }
  assert (N : navigated st = [] <->
              raced st = false
              \/ get_machine_id_data st = None /\ checkTimeout st = None).
  { destruct (raced st).
    - destruct (outcome st) as [s|].
      + destruct Hrace as [Hn Hs]. rewrite Hn. split; [discriminate|].
        intros [E | [E1 E2]]; [discriminate|].
        destruct Hs as [Hs | [_ Hs]]; congruence.
      + destruct Hrace as (E1 & E2 & ->). tauto.
    - destruct Hrace as [_ ->]. tauto. }
  split; [exact N|]. split; [exact R|].
  intros Hne. destruct (raced st) eqn:E.
  - apply R. reflexivity.
  - exfalso. apply Hne, N. left. reflexivity.
Qed.

Lemma navigation_waits_for_race_witness :
  navigated (after [MachineIdSettled (Resolved {| machine_id := "dev-123" |});
                    Elapse 2999]) = [] <->
  raced (after [MachineIdSettled (Resolved {| machine_id := "dev-123" |});
                Elapse 2999]) = false
  \/ get_machine_id_data
       (after [MachineIdSettled (Resolved {| machine_id := "dev-123" |});
               Elapse 2999]) = None
     /\ checkTimeout
          (after [MachineIdSettled (Resolved {| machine_id := "dev-123" |});
                  Elapse 2999]) = None.
Proof.
  assert (Hreach : reachable
                     (after [MachineIdSettled
                               (Resolved {| machine_id := "dev-123" |});
                             Elapse 2999])).
  { apply (JsFacts.run_reachable step boot
             [MachineIdSettled (Resolved {| machine_id := "dev-123" |});
              Elapse 2999]).
    vm_compute. reflexivity. }
  exact (proj1 (navigation_waits_for_race _ Hreach)).
Defined.

(** X7.  A call that succeeds after the deadline has fired still writes
    its id into the store, although the flow has timed out: the
    navigation stays the one to the timed-out screen and the race keeps
    its rejection. *)
Theorem late_success_writes_store st data st' :
  reachable st ->
  timeout_timer st = None ->
  step st (MachineIdSettled (Resolved data)) = Some st' ->
  machineInfo st' =
    {| id := Some (machine_id data); name := None; icon := None |}
  /\ navigated st = [timeout_service]
  /\ navigated st' = [timeout_service]
  /\ outcome st' = Some (Rejected "Timeout").
Proof.
  intros Hst Hfired H.
  pose proof (race_reachable_inv _ Hst) as Hi.
  pose proof (race_inv_step _ _ _ Hi H) as [_ _ _ _ Hstore'].
  destruct Hi as [Hr Ht Hp Hrace _].
  rewrite Hfired in Ht. destruct Ht as [Hct Hnow].
  assert (Hg : get_machine_id_data st = None).
  { simpl in H. destruct (pending_machine_id st); [|discriminate].
    destruct (get_machine_id_data st); [discriminate | reflexivity]. }
  assert (Hraced : raced st = true).
  { destruct (race_timer st) as [r|]; [destruct Hr as (-> & ? & _); lia | apply Hr]. }
  rewrite Hraced in Hrace.
  destruct (outcome st) as [s|] eqn:Ho;
    [|destruct Hrace as (_ & E & _); congruence].
  destruct Hrace as [Hn [Hs | [-> _]]]; [congruence|].
  destruct (settled_step _ _ _ _ Ho H) as [Ho' Hn'].
  simpl in Hn. repeat split; try congruence.
  assert (Hg' : get_machine_id_data st' = Some (Resolved data)).
  { simpl in H. destruct (pending_machine_id st); [|discriminate].
    injection H as <-. rewrite settle_race_keeps_call.
    unfold machine_id_settled. simpl. rewrite Hg. reflexivity. }
  rewrite Hg' in Hstore'. exact Hstore'.
Qed.

Lemma late_success_writes_store_witness :
  machineInfo
    (after [Elapse 3000; Fire_race_timer; Elapse 12000; Fire_timeout_timer;
            MachineIdSettled (Resolved {| machine_id := "dev-123" |})])
  = {| id := Some "dev-123"; name := None; icon := None |}.
Proof.
  assert (Hreach : reachable
                     (after [Elapse 3000; Fire_race_timer; Elapse 12000;
                             Fire_timeout_timer])).
  { apply (JsFacts.run_reachable step boot
             [Elapse 3000; Fire_race_timer; Elapse 12000; Fire_timeout_timer]).
    vm_compute. reflexivity. }
  assert (F : timeout_timer
                (after [Elapse 3000; Fire_race_timer; Elapse 12000;
                        Fire_timeout_timer]) = None)
    by (vm_compute; reflexivity).
  assert (H : step (after [Elapse 3000; Fire_race_timer; Elapse 12000;
                           Fire_timeout_timer])
                (MachineIdSettled (Resolved {| machine_id := "dev-123" |}))
              = Some (after [Elapse 3000; Fire_race_timer; Elapse 12000;
                             Fire_timeout_timer;
                             MachineIdSettled
                               (Resolved {| machine_id := "dev-123" |})]))
    by (vm_compute; reflexivity).
  exact (proj1 (late_success_writes_store _ _ _ Hreach F H)).
Defined.

(** X8.  In every reachable state of identity resolution the store is
    empty until [get_machine_id] has succeeded and holds exactly its id,
    with no name and no icon, from then on; the call is outstanding
    exactly while its promise is pending, so it settles once at most:
    neither a failed call nor the deadline ever writes the store. *)
Theorem store_written_by_success_only st :
  reachable st ->
  machineInfo st =
    match get_machine_id_data st with
    | Some (Resolved data) =>
        {| id := Some (machine_id data); name := None; icon := None |}
    | _ => {| id := None; name := None; icon := None |}
    end
  /\ (pending_machine_id st = true <-> get_machine_id_data st = None)
  /\ forall r st',
       step st (MachineIdSettled r) = Some st' ->
       get_machine_id_data st = None
       /\ get_machine_id_data st' = Some r
       /\ forall r', step st' (MachineIdSettled r') = None.
Proof.
  intros Hst. pose proof (race_reachable_inv _ Hst) as Hi.
  destruct Hi as [Hr Ht Hp Hrace Hstore]. split; [|split].
  - destruct (get_machine_id_data st) as [[data|error]|]; exact Hstore.
  - rewrite Hp. destruct (get_machine_id_data st); split; congruence.
  - intros r st' H.
    assert (Hg : get_machine_id_data st = None).
    { simpl in H. destruct (pending_machine_id st); [|discriminate].
      destruct (get_machine_id_data st); [discriminate | reflexivity]. }
    assert (Hg' : get_machine_id_data st' = Some r).
    { simpl in H. destruct (pending_machine_id st); [|discriminate].
      injection H as <-. rewrite settle_race_keeps_call.
      unfold machine_id_settled. destruct r; simpl; rewrite Hg; reflexivity. }
    split; [exact Hg|]. split; [exact Hg'|].
    intros r'.
    pose proof (race_inv_step _ _ _ (race_reachable_inv _ Hst) H) as [_ _ Hp' _ _].
    rewrite Hg' in Hp'. simpl. rewrite Hp'. reflexivity.
Qed.

Lemma store_written_by_success_only_witness :
  machineInfo (after [MachineIdSettled (Rejected "transport error")]) =
  match get_machine_id_data
          (after [MachineIdSettled (Rejected "transport error")]) with
  | Some (Resolved data) =>
      {| id := Some (machine_id data); name := None; icon := None |}
  | _ => {| id := None; name := None; icon := None |}
  end.
Proof.
  assert (Hreach : reachable
                     (after [MachineIdSettled (Rejected "transport error")])).
  { apply (JsFacts.run_reachable step boot
             [MachineIdSettled (Rejected "transport error")]).
    vm_compute. reflexivity. }
  exact (proj1 (store_written_by_success_only _ Hreach)).
Defined.

End ConfigureMachineFacts.

(** ** The pairing screen *)

Module LinkMachineFacts.
Import LinkMachine.

Lemma pairing_inv_boot : Inv boot.
Proof.
  split; split; simpl; unfold on_time, all_armed; simpl;
    try solve [intuition (try lia; try congruence)].
Qed.

Lemma not_invalidated old new :
  invalidated old new = false ->
  is_code_provision new = is_code_provision old
  /\ is_error new = is_error old
  /\ error_message new = error_message old.
Proof.
  unfold invalidated. intros H.
  apply orb_false_elim in H as [H H3]. apply orb_false_elim in H as [H1 H2].
  apply negb_false_iff in H1, H2, H3.
  apply Bool.eqb_prop in H1, H2. apply String.eqb_eq in H3. auto.
Qed.

(** The reactive block touches [apiInProgress], the intervals and the
    navigation only. *)
Lemma reactive_cases st :
  (is_code_provision st = true
   /\ reactive st = goto configure_machine (clearIntervalProcess st))
  \/ (is_code_provision st = false /\ is_error st = true
      /\ reactive st = goto (setup_failed (error_message st)) st)
  \/ (is_code_provision st = false /\ is_error st = false /\ reactive st = st).
Proof.
  unfold reactive.
  destruct (is_code_provision st); [auto|].
  destruct (is_error st); auto.
Qed.

Lemma flush_cases old new :
  (flush old new = new
   /\ (mounted new = false
       \/ is_code_provision new = is_code_provision old
          /\ is_error new = is_error old
          /\ error_message new = error_message old))
  \/ (flush old new = reactive new /\ mounted new = true).
Proof.
  unfold flush. destruct (mounted new); simpl; [|auto].
  destruct (invalidated old new) eqn:Hi; [auto|].
  left. split; [reflexivity|]. right. apply not_invalidated. exact Hi.
Qed.

Lemma core_reactive st : Core st -> Core (reactive st).
Proof.
  intros [Hn Hg Hp Hu Ht Hpoll].
  destruct (reactive_cases st) as [(_ & ->) | [(_ & _ & ->) | (_ & _ & ->)]];
    split; simpl; auto.
Qed.

Lemma core_flush old new : Core new -> Core (flush old new).
Proof.
  intros H. destruct (flush_cases old new) as [(-> & _) | (-> & _)];
    [exact H | apply core_reactive; exact H].
Qed.

Lemma routing_flush old new :
  Routing old ->
  mounted new = mounted old ->
  navigated new = navigated old ->
  (all_armed old -> all_armed new) ->
  (cleared old -> cleared new) ->
  Routing (flush old new).
Proof.
  intros [Hc Hf Ha Hd] Hm Hn Harm Hclr.
  destruct (flush_cases old new) as [(-> & [Hu | (E1 & E2 & E3)]) | (-> & Hmt)].
  - split; intros; try congruence. apply Hclr, Hd. congruence.
  - split.
    + intros M P. rewrite Hm in M. rewrite E1 in P.
      destruct (Hc M P) as [C L]. rewrite Hn. auto.
    + intros M P Q. rewrite Hm in M. rewrite E1 in P. rewrite E2 in Q.
      rewrite Hn, E3. auto.
    + intros M N. rewrite Hm in M. rewrite Hn in N. auto.
    + intros M. rewrite Hm in M. auto.
  - destruct (reactive_cases new) as [(P & ->) | [(P & Q & ->) | (P & Q & ->)]].
    + split; simpl.
      * intros _ _. split; [repeat split | eexists; reflexivity].
      * congruence.
      * intros _ N. exfalso. apply N, in_or_app. right. left. reflexivity.
      * congruence.
    + split; simpl.
      * congruence.
      * intros _ _ _. eexists; reflexivity.
      * intros M N. apply Harm, Ha; [congruence|].
        intros I. apply N, in_or_app. left. congruence.
      * congruence.
    + split.
      * congruence.
      * congruence.
      * intros M N. apply Harm, Ha; congruence.
      * congruence.
Qed.

Lemma routing_same st st' :
  Routing st ->
  mounted st' = mounted st ->
  navigated st' = navigated st ->
  is_code_provision st' = is_code_provision st ->
  is_error st' = is_error st ->
  error_message st' = error_message st ->
  (all_armed st -> all_armed st') ->
  (cleared st -> cleared st') ->
  Routing st'.
Proof.
  intros [Hc Hf Ha Hd] Hm Hn E1 E2 E3 Harm Hclr.
  split; rewrite Hm, ?Hn, ?E1, ?E2, ?E3.
  - intros M P. destruct (Hc M P). auto.
  - exact Hf.
  - auto.
  - auto.
Qed.

Lemma is_due_eq now due : is_due now due = true -> due = Some now.
Proof.
  destruct due as [d|]; simpl; [|discriminate].
  intros H. apply Z.eqb_eq in H. congruence.
Qed.

Lemma next_multiple period d : d mod period = 0 -> (d + period) mod period = 0.
Proof.
  intros H. rewrite <- (Z.mul_1_l period) at 1.
  rewrite Z_mod_plus_full. exact H.
Qed.

Lemma on_time_elapse period now d due :
  0 < d -> not_overdue (now + d) due = true ->
  on_time period now due -> on_time period (now + d) due.
Proof.
  destruct due as [t|]; simpl; [|auto].
  intros Hd Hle (Hr & Hpos & Hm). apply Z.leb_le in Hle. repeat split; auto; lia.
Qed.

Lemma on_time_rearm period now :
  0 < period -> on_time period now (Some now) ->
  on_time period now (Some (now + period)).
Proof.
  simpl. intros Hp (_ & Hpos & Hm).
  repeat split; try lia. apply next_multiple; exact Hm.
Qed.

(** Whatever [apiInProgress] was, [generate_code_req] sets it and calls
    the agent. *)
Lemma generate_code_req_eq st :
  generate_code_req st =
  set_invoked (invoked st ++ [generate_code])
    (set_pending_generate (S (pending_generate st))
       (set_apiInProgress true (set_timeout 60 st))).
Proof.
  unfold generate_code_req. simpl.
  destruct (apiInProgress st) eqn:E; simpl; [|reflexivity].
  rewrite E. unfold set_invoked, set_pending_generate, set_apiInProgress; simpl.
  rewrite E. reflexivity.
Qed.

Ltac fired H Hdue :=
  match type of H with
  | (if is_due ?n ?t then _ else _) = _ =>
      destruct (is_due n t) eqn:Hdue; [|discriminate];
      apply is_due_eq in Hdue; injection H as <-
  end.

Lemma core_step st e st' :
  Core st -> step st e = Some st' -> Core st'.
Proof.
  intros [Hn Hg Hp Hu Ht Hpoll] H.
  destruct e as [d| | | |r|i r|]; simpl in H.
  - (* Elapse *)
    destruct (0 <? d) eqn:Hd; [|discriminate]. apply Z.ltb_lt in Hd.
    destruct (not_overdue _ (generate_code_process st)) eqn:H1; [|discriminate].
    destruct (not_overdue _ (provision_code_process st)) eqn:H2; [|discriminate].
    destruct (not_overdue _ (update_timer st)) eqn:H3; [|discriminate].
    injection H as <-.
    split; simpl; auto using on_time_elapse; lia.
  - (* rotation tick *)
    fired H Hdue. apply core_flush. rewrite Hdue in Hg.
    rewrite generate_code_req_eq.
    split; simpl; auto; try lia; apply on_time_rearm; auto; lia.
  - (* poll tick *)
    fired H Hdue. apply core_flush. rewrite Hdue in Hp.
    unfold provision_code_tick; simpl.
    destruct (is_code_generated st) eqn:Hgen; simpl;
      split; simpl; auto;
      try (intros N; specialize (Hpoll N); congruence);
      apply on_time_rearm; auto; lia.
  - (* countdown tick *)
    fired H Hdue. apply core_flush. rewrite Hdue in Hu.
    unfold update_timer_tick; simpl.
    destruct (is_code_generated st) eqn:Hgen; simpl;
      [destruct (Z.leb_spec (timeout st) 0); simpl|];
      split; simpl; auto; try lia;
      try (intros N; specialize (Hpoll N); congruence);
      apply on_time_rearm; auto; lia.
  - (* generate_code() settles *)
    destruct (0 <? pending_generate st)%nat; [|discriminate].
    injection H as <-. apply core_flush.
    unfold generate_code_settled. destruct r; split; simpl; auto.
  - (* provision_by_code() settles *)
    destruct (nth_error (pending_provision st) i) as [c|] eqn:Hi; [|discriminate].
    injection H as <-. apply core_flush.
    assert (Hgen : is_code_generated st = true).
    { apply Hpoll. intros E. rewrite E in Hi. destruct i; discriminate. }
    unfold provision_code_settled.
    destruct r as [data|error]; simpl.
    + destruct (success data); split; simpl; auto.
    + destruct (includes _ _); split; simpl; auto.
  - (* Destroy *)
    destruct (mounted st); [|discriminate]. injection H as <-.
    split; simpl; auto.
Qed.

Lemma routing_step st e st' :
  Routing st -> step st e = Some st' -> Routing st'.
Proof.
  intros HR H.
  destruct e as [d| | | |r|i r|]; simpl in H.
  - destruct (_ && _); [|discriminate]. injection H as <-.
    apply (routing_same st); auto.
  - fired H Hdue. apply routing_flush.
    + apply (routing_same st); auto.
      * unfold all_armed; simpl; tauto.
      * unfold cleared; simpl. intros (E & _). congruence.
    + rewrite generate_code_req_eq. reflexivity.
    + rewrite generate_code_req_eq. reflexivity.
    + rewrite generate_code_req_eq. unfold all_armed; simpl. tauto.
    + unfold cleared; simpl. intros (E & _). discriminate.
  - fired H Hdue. apply routing_flush.
    + apply (routing_same st); auto.
      * unfold all_armed; simpl; tauto.
      * unfold cleared; simpl. intros (_ & E & _). congruence.
    + unfold provision_code_tick; simpl. destruct (is_code_generated st); reflexivity.
    + unfold provision_code_tick; simpl. destruct (is_code_generated st); reflexivity.
    + unfold provision_code_tick, all_armed; simpl.
      destruct (is_code_generated st); simpl; tauto.
    + unfold cleared; simpl. intros (_ & E & _). discriminate.
  - fired H Hdue. apply routing_flush.
    + apply (routing_same st); auto.
      * unfold all_armed; simpl; tauto.
      * unfold cleared; simpl. intros (_ & _ & E). congruence.
    + unfold update_timer_tick; simpl.
      destruct (is_code_generated st); [destruct (timeout st <=? 0)|]; reflexivity.
    + unfold update_timer_tick; simpl.
      destruct (is_code_generated st); [destruct (timeout st <=? 0)|]; reflexivity.
    + unfold update_timer_tick, all_armed; simpl.
      destruct (is_code_generated st); [destruct (timeout st <=? 0)|]; simpl; tauto.
    + unfold cleared; simpl. intros (_ & _ & E). discriminate.
  - destruct (0 <? pending_generate st)%nat; [|discriminate].
    injection H as <-.
    apply routing_flush; auto;
      unfold generate_code_settled, all_armed, cleared; destruct r; simpl; auto.
  - destruct (nth_error (pending_provision st) i) as [c|]; [|discriminate].
    injection H as <-.
    apply routing_flush; auto;
      unfold provision_code_settled, all_armed, cleared;
      destruct r as [data|error]; simpl;
      try destruct (success data); try destruct (includes _ _); simpl; auto.
  - destruct (mounted st); [|discriminate]. injection H as <-.
    split; simpl; try discriminate. intros _. repeat split.
Qed.

Lemma pairing_inv_step st e st' :
  Inv st -> step st e = Some st' -> Inv st'.
Proof.
  intros [HC HR] H. split; [eapply core_step | eapply routing_step]; eassumption.
Qed.

Lemma pairing_reachable_inv st : reachable st -> Inv st.
Proof.
  apply JsFacts.reachable_invariant; [exact pairing_inv_boot | exact pairing_inv_step].
Qed.

(** The component update leaves every variable but [apiInProgress]
    alone, and the calls as they are. *)
Lemma flush_vars old new :
  provision_code (flush old new) = provision_code new
  /\ is_code_generated (flush old new) = is_code_generated new
  /\ is_code_provision (flush old new) = is_code_provision new
  /\ error_message (flush old new) = error_message new
  /\ is_error (flush old new) = is_error new
  /\ timeout (flush old new) = timeout new
  /\ now (flush old new) = now new
  /\ mounted (flush old new) = mounted new
  /\ pending_generate (flush old new) = pending_generate new
  /\ pending_provision (flush old new) = pending_provision new
  /\ invoked (flush old new) = invoked new.
Proof.
  destruct (flush_cases old new) as [(-> & _) | (-> & _)];
    [repeat split|].
  destruct (reactive_cases new) as [(_ & ->) | [(_ & _ & ->) | (_ & _ & ->)]];
    repeat split.
Qed.

(** A task that changes none of the variables the reactive block reads
    is not followed by a run of the block. *)
Lemma flush_unchanged old new :
  is_code_provision new = is_code_provision old ->
  is_error new = is_error old ->
  error_message new = error_message old ->
  flush old new = new.
Proof.
  intros E1 E2 E3. unfold flush, invalidated.
  rewrite E1, E2, E3, !Bool.eqb_reflx, String.eqb_refl. simpl.
  rewrite andb_false_r. reflexivity.
Qed.

(** While the component is mounted and has not navigated, no flag is
    raised and the three intervals are armed. *)
Lemma on_pairing_screen st :
  Routing st -> mounted st = true -> navigated st = [] ->
  is_code_provision st = false /\ is_error st = false /\ all_armed st.
Proof.
  intros [Hc Hf Ha _] M N.
  assert (P : is_code_provision st = false).
  { destruct (is_code_provision st); [|reflexivity].
    destruct (Hc M eq_refl) as (_ & l & E). rewrite N in E.
    destruct l; discriminate. }
  assert (Q : is_error st = false).
  { destruct (is_error st); [|reflexivity].
    destruct (Hf M P eq_refl) as (l & E). rewrite N in E.
    destruct l; discriminate. }
  repeat split; auto; apply Ha; auto; rewrite N; simpl; tauto.
Qed.

(** What a poll tick does. *)
Lemma poll_tick st st' :
  step st Fire_provision_code_process = Some st' ->
  provision_code_process st = Some (now st)
  /\ st' = provision_code_tick
             (set_provision_code_process (Some (now st + 20000)) st).
Proof.
  simpl. intros H. fired H Hdue. split; [exact Hdue|].
  unfold task. apply flush_unchanged;
    unfold provision_code_tick; simpl;
    destruct (is_code_generated st); reflexivity.
Qed.

(** What a rotation tick does. *)
Lemma rotation_tick st st' :
  step st Fire_generate_code_process = Some st' ->
  generate_code_process st = Some (now st)
  /\ st' = generate_code_req
             (set_generate_code_process (Some (now st + 60000)) st).
Proof.
  simpl. intros H. fired H Hdue. split; [exact Hdue|].
  unfold task. apply flush_unchanged; rewrite generate_code_req_eq; reflexivity.
Qed.

(** What a countdown tick does. *)
Lemma countdown_tick st st' :
  step st Fire_update_timer = Some st' ->
  update_timer st = Some (now st)
  /\ st' = update_timer_tick (set_update_timer (Some (now st + 1000)) st).
Proof.
  simpl. intros H. fired H Hdue. split; [exact Hdue|].
  unfold task. apply flush_unchanged;
    unfold update_timer_tick; simpl;
    (destruct (is_code_generated st); [destruct (timeout st <=? 0)|]);
    reflexivity.
Qed.

(** C5, as amended.  Every poll tick falls on a multiple of 20000 ms
    and, once a code has been generated, calls [provision_by_code] with
    the current code whether or not earlier calls are still outstanding:
    the new call joins them.  Before the first code the tick does
    nothing. *)
Theorem poll_tick_issues_call st st' :
  reachable st ->
  step st Fire_provision_code_process = Some st' ->
  0 < now st /\ now st mod 20000 = 0
  /\ if is_code_generated st
     then pending_provision st' = pending_provision st ++ [provision_code st]
          /\ invoked st' = invoked st ++ [provision_by_code (provision_code st)]
     else pending_provision st' = pending_provision st
          /\ invoked st' = invoked st.
Proof.
  intros Hst H. destruct (pairing_reachable_inv _ Hst) as [[_ _ Hp _ _ _] _].
  destruct (poll_tick _ _ H) as [Hdue ->]. rewrite Hdue in Hp.
  destruct Hp as (_ & Hpos & Hmod). repeat split; auto.
  unfold provision_code_tick; simpl.
  destruct (is_code_generated st); simpl; auto.
Qed.

Lemma poll_tick_issues_call_witness :
  pending_provision (after two_polls) = ["A1B2C3"; "A1B2C3"].
Proof.
  assert (Hreach : reachable (after (removelast two_polls))).
  { apply (JsFacts.run_reachable step boot (removelast two_polls)).
    vm_compute. reflexivity. }
  assert (Hstep : step (after (removelast two_polls)) Fire_provision_code_process
                  = Some (after two_polls)) by (vm_compute; reflexivity).
  destruct (poll_tick_issues_call _ _ Hreach Hstep) as (_ & _ & H).
  assert (Hgen : is_code_generated (after (removelast two_polls)) = true)
    by (vm_compute; reflexivity).
  rewrite Hgen in H. destruct H as [H _]. rewrite H.
  vm_compute. reflexivity.
Defined.

(** C5, as the specification words it, fails: with a slow agent two
    calls for the same code are outstanding at 40000 ms. *)
Lemma two_polls_in_flight :
  ~ single_poll_in_flight.
Proof.
  intros H.
  assert (Hreach : reachable (after two_polls)).
  { apply (JsFacts.run_reachable step boot two_polls). vm_compute. reflexivity. }
  specialize (H _ Hreach).
  assert (E : pending_provision (after two_polls) = ["A1B2C3"; "A1B2C3"])
    by (vm_compute; reflexivity).
  rewrite E in H. inversion H as [|x l Hx _]. apply Hx. left. reflexivity.
Qed.

(** What the settlement of a poll does before the component update. *)
Lemma poll_settled st i r st' :
  step st (ProvisionSettled i r) = Some st' ->
  nth_error (pending_provision st) i <> None
  /\ st' = flush st (provision_code_settled i r st).
Proof.
  simpl. destruct (nth_error (pending_provision st) i); [|discriminate].
  intros H. injection H as <-. split; [discriminate | reflexivity].
Qed.

Lemma outstanding_poll_has_code st i :
  Core st -> nth_error (pending_provision st) i <> None ->
  is_code_generated st = true.
Proof.
  intros HC Hi. apply (core_polled _ HC).
  intros E. rewrite E in Hi. destruct i; apply Hi; reflexivity.
Qed.

(** C2, as amended.  On the pairing screen (mounted, no navigation yet),
    when a poll is answered with [success = false]: the message
    ["Incorrect code! Try again!"] is recorded in [error_message] and
    [apiInProgress] is lowered; no flag is raised and the flow does not
    navigate; the three intervals stay armed as they were.  Polling is
    not suspended: the next poll tick calls [provision_by_code] again.
    Rotation continues: the next rotation tick falls on a positive
    multiple of 60000 ms, resets the countdown and calls
    [generate_code], whose successful answer becomes the new code. *)
Theorem invalid_code_keeps_polling st i st' :
  reachable st ->
  mounted st = true ->
  navigated st = [] ->
  step st (ProvisionSettled i (Resolved {| success := false |})) = Some st' ->
  error_message st' = "Incorrect code! Try again!"
  /\ apiInProgress st' = false
  /\ is_error st' = false
  /\ is_code_provision st' = false
  /\ navigated st' = []
  /\ mounted st' = true
  /\ generate_code_process st' = generate_code_process st
  /\ provision_code_process st' = provision_code_process st
  /\ update_timer st' = update_timer st
  /\ all_armed st'
  /\ is_code_generated st' = true
  /\ (forall st'',
        step st' Fire_provision_code_process = Some st'' ->
        invoked st'' = invoked st' ++ [provision_by_code (provision_code st')])
  /\ (forall st'',
        step st' Fire_generate_code_process = Some st'' ->
        0 < now st'' /\ now st'' mod 60000 = 0
        /\ timeout st'' = 60
        /\ invoked st'' = invoked st' ++ [generate_code]
        /\ forall data st3,
             step st'' (GenerateSettled (Resolved data)) = Some st3 ->
             provision_code st3 = code data).
Proof.
  intros Hst M N H.
  destruct (pairing_reachable_inv _ Hst) as [HC HR].
  destruct (on_pairing_screen _ HR M N) as (P & Q & A).
  destruct (poll_settled _ _ _ _ H) as [Hi ->].
  pose proof (outstanding_poll_has_code _ _ HC Hi) as Hgen.
  set (new := provision_code_settled i (Resolved {| success := false |}) st).
  assert (E : flush st new = new).
  { destruct (flush_cases st new) as [(E & _) | (E & _)]; [exact E|].
    rewrite E. unfold reactive. subst new. simpl. rewrite Q. reflexivity. }
  rewrite E. subst new. simpl.
  repeat split; auto; try apply A.
  - intros st'' Ht. destruct (poll_tick _ _ Ht) as [_ ->].
    unfold provision_code_tick; simpl. rewrite Hgen. reflexivity.
  - destruct (rotation_tick _ _ H0) as [Hdue ->].
    rewrite generate_code_req_eq; simpl.
    destruct HC as [_ Hg _ _ _ _]. simpl in Hdue. rewrite Hdue in Hg.
    apply Hg.
  - destruct (rotation_tick _ _ H0) as [Hdue ->].
    rewrite generate_code_req_eq; simpl.
    destruct HC as [_ Hg _ _ _ _]. simpl in Hdue. rewrite Hdue in Hg.
    apply Hg.
  - destruct (rotation_tick _ _ H0) as [_ ->].
    rewrite generate_code_req_eq. reflexivity.
  - destruct (rotation_tick _ _ H0) as [_ ->].
    rewrite generate_code_req_eq. reflexivity.
  - intros data st3 Hs. simpl in Hs.
    destruct (0 <? pending_generate st'')%nat; [|discriminate].
    injection Hs as <-. unfold task.
    destruct (flush_vars st'' (generate_code_settled (Resolved data) st''))
      as (-> & _).
    reflexivity.
Qed.

Lemma invalid_code_keeps_polling_witness :
  error_message
    (after (rejected_poll
            ++ [ProvisionSettled 0 (Resolved {| success := false |})]))
  = "Incorrect code! Try again!".
Proof.
  assert (Hreach : reachable (after rejected_poll)).
  { apply (JsFacts.run_reachable step boot rejected_poll).
    vm_compute. reflexivity. }
  assert (M : mounted (after rejected_poll) = true)
    by (vm_compute; reflexivity).
  assert (N : navigated (after rejected_poll) = [])
    by (vm_compute; reflexivity).
  assert (H : step (after rejected_poll)
                (ProvisionSettled 0 (Resolved {| success := false |}))
              = Some (after (rejected_poll
                             ++ [ProvisionSettled 0
                                   (Resolved {| success := false |})])))
    by (vm_compute; reflexivity).
  exact (proj1 (invalid_code_keeps_polling _ _ _ Hreach M N H)).
Defined.

(** A minute of wrong answers: three polls, no navigation, and a second
    code at 60000 ms. *)
Example new_code_at_60_seconds :
  option_map
    (fun st => (now st, provision_code st, error_message st, timeout st,
                navigated st, invoked st))
    (run step boot wrong_code_minute)
  = Some (60000, "Z9Y8X7", "Incorrect code! Try again!", 60, [],
          [generate_code; provision_by_code "A1B2C3";
           provision_by_code "A1B2C3"; provision_by_code "A1B2C3";
           generate_code]).
Proof. vm_compute. reflexivity. Qed.

(** C2, as the specification words it, fails: after the answer
    [success = false] at 20000 ms, the poll tick at 40000 ms calls
    [provision_by_code] again although no new code cycle has begun. *)
Lemma polling_continues_after_invalid_code :
  ~ polling_suspended_after_invalid_code.
Proof.
  intros H.
  assert (Hreach : reachable (after rejected_poll)).
  { apply (JsFacts.run_reachable step boot rejected_poll).
    vm_compute. reflexivity. }
  specialize (H (after rejected_poll) 0%nat
                (after (rejected_poll
                        ++ [ProvisionSettled 0 (Resolved {| success := false |})]))
                (seconds 20 ++ [Fire_provision_code_process])
                (after (rejected_poll
                        ++ [ProvisionSettled 0 (Resolved {| success := false |})]
                        ++ seconds 20 ++ [Fire_provision_code_process]))
                Hreach).
  assert (E : invoked
                (after (rejected_poll
                        ++ [ProvisionSettled 0 (Resolved {| success := false |})]
                        ++ seconds 20 ++ [Fire_provision_code_process]))
              = invoked
                  (after (rejected_poll
                          ++ [ProvisionSettled 0
                                (Resolved {| success := false |})]))).
  { apply H; [vm_compute; reflexivity | reflexivity | vm_compute; reflexivity]. }
  vm_compute in E. discriminate E.
Qed.

(** Once the intervals are cleared no timer callback can run, and with
    them gone nothing calls the agent. *)
Lemma cleared_step st e st' :
  cleared st -> step st e = Some st' ->
  cleared st' /\ invoked st' = invoked st /\ is_tick e = false.
Proof.
  intros (Cg & Cp & Cu) H.
  assert (K : forall old new,
             cleared new -> invoked new = invoked st ->
             cleared (flush old new) /\ invoked (flush old new) = invoked st).
  { intros old new (Ng & Np & Nu) Ni.
    destruct (flush_vars old new) as (_ & _ & _ & _ & _ & _ & _ & _ & _ & _ & ->).
    split; [|exact Ni].
    destruct (flush_cases old new) as [(-> & _) | (-> & _)];
      [repeat split; assumption|].
    destruct (reactive_cases new) as [(_ & ->) | [(_ & _ & ->) | (_ & _ & ->)]];
      repeat split; assumption. }
  destruct e as [d| | | |r|i r|]; simpl in H.
  - destruct (_ && _); [|discriminate]. injection H as <-.
    repeat split; assumption.
  - rewrite Cg in H. discriminate.
  - rewrite Cp in H. discriminate.
  - rewrite Cu in H. discriminate.
  - destruct (0 <? pending_generate st)%nat; [|discriminate].
    injection H as <-.
    destruct (K st (generate_code_settled r st)) as [C I];
      [destruct r; repeat split; assumption | destruct r; reflexivity |].
    auto.
  - destruct (nth_error (pending_provision st) i); [|discriminate].
    injection H as <-.
    destruct (K st (provision_code_settled i r st)) as [C I].
    + unfold provision_code_settled. destruct r as [data|error]; simpl;
        [destruct (success data) | destruct (includes _ _)];
        repeat split; assumption.
    + unfold provision_code_settled. destruct r as [data|error]; simpl;
        [destruct (success data) | destruct (includes _ _)]; reflexivity.
    + auto.
  - destruct (mounted st); [|discriminate]. injection H as <-.
    repeat split.
Qed.

Lemma cleared_run evs : forall st st',
  cleared st -> run step st evs = Some st' ->
  cleared st' /\ invoked st' = invoked st.
Proof.
  induction evs as [|e evs IH]; simpl; intros st st' C H.
  - injection H as <-. auto.
  - destruct (step st e) as [s1|] eqn:Hs1; [|discriminate].
    destruct (cleared_step _ _ _ C Hs1) as (C1 & I1 & _).
    destruct (IH _ _ C1 H) as (C2 & I2). split; [exact C2 | congruence].
Qed.

Lemma no_tick_when_cleared evs : forall st st',
  cleared st -> run step st evs = Some st' ->
  forall e, In e evs -> is_tick e = false.
Proof.
  induction evs as [|e evs IH]; simpl; intros st st' C H x Hx; [tauto|].
  destruct (step st e) as [s1|] eqn:Hs1; [|discriminate].
  destruct (cleared_step _ _ _ C Hs1) as (C1 & _ & T1).
  destruct Hx as [<- | Hx]; [exact T1 | eapply IH; eassumption].
Qed.

(** C6.  When a poll is answered with [success = true], the rotation,
    polling and countdown intervals are all cleared and, the pairing
    screen being mounted, the last navigation is to the
    identity-resolution screen.  From then on, whatever happens, the
    intervals stay cleared, no timer callback runs, and the agent is not
    called again: in particular no further code is requested. *)
Theorem confirmation_stops_intervals st i st' :
  reachable st ->
  step st (ProvisionSettled i (Resolved {| success := true |})) = Some st' ->
  is_code_provision st' = true
  /\ cleared st'
  /\ (mounted st = true -> exists l, navigated st' = l ++ [configure_machine])
  /\ forall evs st'',
       run step st' evs = Some st'' ->
       cleared st''
       /\ invoked st'' = invoked st'
       /\ forall e, In e evs -> is_tick e = false.
Proof.
  intros Hst H.
  pose proof (pairing_reachable_inv _ Hst) as Hi.
  destruct (pairing_inv_step _ _ _ Hi H) as [_ [Hc _ _ Hd]].
  destruct (poll_settled _ _ _ _ H) as [_ E].
  destruct (flush_vars st
              (provision_code_settled i (Resolved {| success := true |}) st))
    as (_ & _ & F1 & _ & _ & _ & _ & F2 & _).
  rewrite <- E in F1, F2. simpl in F1, F2.
  assert (C : cleared st').
  { destruct (mounted st'); [apply Hc; auto | apply Hd; reflexivity]. }
  split; [exact F1|]. split; [exact C|]. split.
  { intros M. rewrite M in F2. apply Hc; assumption. }
  intros evs st'' Hrun.
  destruct (cleared_run _ _ _ C Hrun) as [C2 I2].
  split; [exact C2|]. split; [exact I2|].
  exact (no_tick_when_cleared _ _ _ C Hrun).
Qed.

Lemma confirmation_stops_intervals_witness :
  is_code_provision
    (after (first_poll ++ [ProvisionSettled 0 (Resolved {| success := true |})]))
  = true.
Proof.
  assert (Hreach : reachable (after first_poll)).
  { apply (JsFacts.run_reachable step boot first_poll).
    vm_compute. reflexivity. }
  assert (H : step (after first_poll)
                (ProvisionSettled 0 (Resolved {| success := true |}))
              = Some (after (first_poll
                             ++ [ProvisionSettled 0
                                   (Resolved {| success := true |})])))
    by (vm_compute; reflexivity).
  exact (proj1 (confirmation_stops_intervals _ _ _ Hreach H)).
Defined.

(** The confirmed run, in full. *)
Example confirmed_at_20_seconds :
  run step boot
    (first_poll ++ [ProvisionSettled 0 (Resolved {| success := true |})])
  = Some {| provision_code := "A1B2C3"; is_code_generated := true;
            is_code_provision := true; error_message := "";
            apiInProgress := false; is_error := false; timeout := 40;
            now := 20000;
            generate_code_process := None; provision_code_process := None;
            update_timer := None;
            mounted := true; pending_generate := 0%nat;
            pending_provision := [];
            invoked := [generate_code; provision_by_code "A1B2C3"];
            navigated := [configure_machine] |}.
Proof. vm_compute. reflexivity. Qed.

(** C7.  On the mounted pairing screen, before any confirmation, when a
    poll fails with an agent error: if the lower-cased error text
    contains ["parse response"], no flag is raised, the message and the
    navigation are untouched, the intervals stay as they were (armed,
    unless the flow has already advanced) and the next poll tick calls
    [provision_by_code] again; otherwise [is_error]
    is raised with the message ["Something went wrong! Try again!"] and
    the last navigation is to the setup-failed screen carrying that
    message. *)
Theorem poll_error_classification st i error st' :
  reachable st ->
  mounted st = true ->
  is_code_provision st = false ->
  step st (ProvisionSettled i (Rejected error)) = Some st' ->
  if includes "parse response" (toLowerCase error)
  then is_error st' = is_error st
       /\ error_message st' = error_message st
       /\ navigated st' = navigated st
       /\ generate_code_process st' = generate_code_process st
       /\ provision_code_process st' = provision_code_process st
       /\ update_timer st' = update_timer st
       /\ (~ In configure_machine (navigated st) -> all_armed st')
       /\ (forall st'',
             step st' Fire_provision_code_process = Some st'' ->
             invoked st'' = invoked st' ++ [provision_by_code (provision_code st')])
  else is_error st' = true
       /\ error_message st' = "Something went wrong! Try again!"
       /\ exists l,
            navigated st' = l ++ [setup_failed "Something went wrong! Try again!"].
Proof.
  intros Hst M P H.
  pose proof (pairing_reachable_inv _ Hst) as [HC HR].
  pose proof (pairing_inv_step _ _ _ (conj HC HR) H) as [_ [_ Hf _ _]].
  destruct (poll_settled _ _ _ _ H) as [Hi E].
  pose proof (outstanding_poll_has_code _ _ HC Hi) as Hgen.
  unfold provision_code_settled in E.
  destruct (includes "parse response" (toLowerCase error)).
  - simpl in E. rewrite flush_unchanged in E by reflexivity. subst st'. simpl.
    do 6 (split; [reflexivity|]). split.
    + intros N. apply (routing_armed _ HR M N).
    + intros st'' Ht. destruct (poll_tick _ _ Ht) as [_ ->].
      unfold provision_code_tick; simpl. rewrite Hgen. reflexivity.
  - simpl in E.
    match type of E with
    | st' = flush st ?new =>
        destruct (flush_vars st new) as (_ & _ & F1 & F2 & F3 & _ & _ & F4 & _)
    end.
    rewrite <- E in F1, F2, F3, F4. simpl in F1, F2, F3, F4.
    rewrite M in F4. rewrite P in F1.
    split; [exact F3|]. split; [exact F2|].
    rewrite <- F2. apply Hf; assumption.
Qed.

Lemma poll_error_classification_witness :
  is_error
    (after (first_poll ++ [ProvisionSettled 0 (Rejected "transport error")]))
  = true.
Proof.
  assert (Hreach : reachable (after first_poll)).
  { apply (JsFacts.run_reachable step boot first_poll).
    vm_compute. reflexivity. }
  assert (M : mounted (after first_poll) = true)
    by (vm_compute; reflexivity).
  assert (P : is_code_provision (after first_poll) = false)
    by (vm_compute; reflexivity).
  assert (H : step (after first_poll)
                (ProvisionSettled 0 (Rejected "transport error"))
              = Some (after (first_poll
                             ++ [ProvisionSettled 0
                                   (Rejected "transport error")])))
    by (vm_compute; reflexivity).
  exact (proj1 (poll_error_classification _ _ _ _ Hreach M P H)).
Defined.

(** Both classes of error on the same poll. *)
Example parse_failure_is_swallowed :
  option_map (fun st => (is_error st, navigated st, provision_code_process st))
    (run step boot
       (first_poll
        ++ [ProvisionSettled 0 (Rejected "Failed to Parse Response body")]))
  = Some (false, [], Some 40000).
Proof. vm_compute. reflexivity. Qed.

Example other_failure_is_surfaced :
  option_map (fun st => (is_error st, navigated st))
    (run step boot
       (first_poll ++ [ProvisionSettled 0 (Rejected "transport error")]))
  = Some (true, [setup_failed "Something went wrong! Try again!"]).
Proof. vm_compute. reflexivity. Qed.

(** C8, as amended.  The countdown starts at 60 and stays within 0..60.
    Every rotation tick, like the first request made on mount, resets it
    to 60.  The countdown tick falls on a multiple of 1000 ms and is
    re-armed 1000 ms later; once a code has been generated it takes one
    off the countdown, and a tick that finds the countdown at zero sets
    it to 60 and takes one off in the same callback, leaving 59. *)
Theorem countdown_behaviour st :
  reachable st ->
  timeout boot = 60
  /\ 0 <= timeout st <= 60
  /\ (forall st',
        step st Fire_generate_code_process = Some st' -> timeout st' = 60)
  /\ (forall st',
        step st Fire_update_timer = Some st' ->
        now st mod 1000 = 0
        /\ update_timer st' = Some (now st + 1000)
        /\ timeout st' =
             if is_code_generated st
             then if timeout st =? 0 then 59 else timeout st - 1
             else timeout st).
Proof.
  intros Hst. destruct (pairing_reachable_inv _ Hst) as [[_ _ _ Hu Ht _] _].
  split; [reflexivity|]. split; [exact Ht|]. split.
  - intros st' H. destruct (rotation_tick _ _ H) as [_ ->].
    rewrite generate_code_req_eq. reflexivity.
  - intros st' H. destruct (countdown_tick _ _ H) as [Hdue ->].
    rewrite Hdue in Hu. destruct Hu as (_ & _ & Hmod).
    split; [exact Hmod|].
    unfold update_timer_tick; simpl.
    destruct (is_code_generated st); simpl; [|auto].
    destruct (Z.leb_spec (timeout st) 0), (Z.eqb_spec (timeout st) 0);
      simpl; split; auto; lia.
Qed.

Lemma countdown_behaviour_witness :
  timeout (after (two_minutes ++ [Fire_update_timer])) = 59.
Proof.
  assert (Hreach : reachable (after two_minutes)).
  { apply (JsFacts.run_reachable step boot two_minutes).
    vm_compute. reflexivity. }
  assert (H : step (after two_minutes) Fire_update_timer
              = Some (after (two_minutes ++ [Fire_update_timer])))
    by (vm_compute; reflexivity).
  destruct (countdown_behaviour _ Hreach) as (_ & _ & _ & K).
  destruct (K _ H) as (_ & _ & ->).
  vm_compute. reflexivity.
Defined.

(** C8, as the specification words it, fails: after two minutes with
    the rotation ahead of the countdown, the tick at 120000 ms finds the
    countdown at zero and leaves it at 59, not 60. *)
Lemma countdown_wraps_to_59 :
  ~ countdown_wraps_to_60.
Proof.
  intros H.
  assert (Hreach : reachable (after two_minutes)).
  { apply (JsFacts.run_reachable step boot two_minutes).
    vm_compute. reflexivity. }
  specialize (H (after two_minutes)
                (after (two_minutes ++ [Fire_update_timer])) Hreach).
  assert (E : timeout (after (two_minutes ++ [Fire_update_timer])) = 60).
  { apply H; vm_compute; reflexivity. }
  vm_compute in E. discriminate E.
Qed.

(** The codes the agent has issued so far. *)
Lemma run_snoc evs e st' :
  run step boot (evs ++ [e]) = Some st' ->
  exists st, run step boot evs = Some st /\ step st e = Some st'.
Proof.
  rewrite JsFacts.run_app. destruct (run step boot evs) as [st|]; [|discriminate].
  simpl. destruct (step st e) as [s1|] eqn:E; [|discriminate].
  intros H. injection H as <-. eauto.
Qed.

Lemma generated_code_history evs : forall st,
  run step boot evs = Some st ->
  (is_code_generated st = true ->
   exists data, In (GenerateSettled (Resolved data)) evs
                /\ code data = provision_code st)
  /\ (is_code_generated st = false ->
      provision_code st = " "
      /\ forall data, ~ In (GenerateSettled (Resolved data)) evs)
  /\ (forall c, In (provision_by_code c) (invoked st) ->
      exists data, In (GenerateSettled (Resolved data)) evs /\ code data = c).
Proof.
  induction evs as [|e evs IH] using rev_ind; intros st' H.
  - injection H as <-. simpl. repeat split; try discriminate; auto.
    intros c [Hc | []]. discriminate.
  - destruct (run_snoc _ _ _ H) as (st & Hrun & Hstep).
    destruct (IH _ Hrun) as (G1 & G0 & G2). clear IH H Hrun.
    assert (W : forall data,
               In (GenerateSettled (Resolved data)) evs ->
               In (GenerateSettled (Resolved data)) (evs ++ [e]))
      by (intros; apply in_or_app; auto).
    assert (K : forall new,
               provision_code new = provision_code st ->
               is_code_generated new = is_code_generated st ->
               (forall c, In (provision_by_code c) (invoked new) ->
                          In (provision_by_code c) (invoked st)
                          \/ is_code_generated st = true
                             /\ c = provision_code st) ->
               (forall data, e <> GenerateSettled (Resolved data)) ->
               forall old, st' = flush old new ->
               (is_code_generated st' = true ->
                exists data, In (GenerateSettled (Resolved data)) (evs ++ [e])
                             /\ code data = provision_code st')
               /\ (is_code_generated st' = false ->
                   provision_code st' = " "
                   /\ forall data,
                        ~ In (GenerateSettled (Resolved data)) (evs ++ [e]))
               /\ (forall c, In (provision_by_code c) (invoked st') ->
                   exists data, In (GenerateSettled (Resolved data)) (evs ++ [e])
                                /\ code data = c)).
    { intros new E1 E2 E3 Ne old ->.
      destruct (flush_vars old new) as (-> & -> & _ & _ & _ & _ & _ & _ & _ & _ & ->).
      rewrite E1, E2. repeat split.
      - intros T. destruct (G1 T) as (data & I & C). eauto.
      - apply G0; assumption.
      - intros data I. apply in_app_or in I as [I | [I | []]].
        + apply (proj2 (G0 H) data I).
        + apply (Ne data). congruence.
      - intros c I. destruct (E3 c I) as [I' | (T & ->)].
        + destruct (G2 c I') as (data & J & C). eauto.
        + destruct (G1 T) as (data & J & C). eauto. }
    destruct e as [d| | | |r|i r|]; simpl in Hstep.
    + destruct (_ && _); [|discriminate]. injection Hstep as <-.
      apply (K (set_now (now st + d) st)) with (old := st); auto; try discriminate.
      symmetry. apply flush_unchanged; reflexivity.
    + fired Hstep Hdue. eapply K; [| | | |reflexivity];
        rewrite ?generate_code_req_eq; simpl; try reflexivity; try discriminate.
      intros c I. apply in_app_or in I as [I | [I | []]]; [auto | discriminate].
    + fired Hstep Hdue. eapply K; [| | | |reflexivity];
        unfold provision_code_tick; simpl;
        destruct (is_code_generated st) eqn:T; simpl;
        try reflexivity; try discriminate; auto.
      intros c I. apply in_app_or in I as [I | [I | []]]; [auto|].
      right. split; congruence.
    + fired Hstep Hdue. eapply K; [| | | |reflexivity];
        unfold update_timer_tick; simpl;
        (destruct (is_code_generated st) eqn:T; [destruct (timeout st <=? 0)|]);
        simpl; try reflexivity; try discriminate; auto.
    + destruct (0 <? pending_generate st)%nat; [|discriminate].
      injection Hstep as <-. unfold task.
      destruct r as [data|error].
      * destruct (flush_vars st (generate_code_settled (Resolved data) st))
          as (-> & -> & _ & _ & _ & _ & _ & _ & _ & _ & ->).
        simpl. repeat split.
        -- intros _. exists data. split; [|reflexivity].
           apply in_or_app. right. left. reflexivity.
        -- discriminate.
        -- discriminate.
        -- intros c I. destruct (G2 c I) as (d' & J & C). eauto.
      * eapply K; [| | | |reflexivity]; simpl; try reflexivity; auto.
        discriminate.
    + destruct (nth_error (pending_provision st) i); [|discriminate].
      injection Hstep as <-.
      eapply K; [| | | |reflexivity];
        unfold provision_code_settled; destruct r as [data|error]; simpl;
        try destruct (success data); try destruct (includes _ _);
        simpl; try reflexivity; try discriminate; auto.
    + destruct (mounted st); [|discriminate]. injection Hstep as <-.
      apply (K (onDestroy st)) with (old := onDestroy st);
        auto; discriminate.
Qed.

(** C10.  Along every run of the pairing screen: [is_code_generated] is
    set exactly when some [generate_code] call has succeeded; every code
    passed to [provision_by_code] is the code of an earlier successful
    [generate_code] response; and while no code has been generated,
    [provision_code] still holds the placeholder and a poll tick calls
    nothing. *)
Theorem submit_only_after_generate evs st :
  run step boot evs = Some st ->
  (is_code_generated st = true <->
   exists data, In (GenerateSettled (Resolved data)) evs)
  /\ (forall c,
        In (provision_by_code c) (invoked st) ->
        exists data,
          In (GenerateSettled (Resolved data)) evs /\ code data = c)
  /\ (is_code_generated st = false ->
      provision_code st = " "
      /\ (forall c, ~ In (provision_by_code c) (invoked st))
      /\ forall st',
           step st Fire_provision_code_process = Some st' ->
           invoked st' = invoked st
           /\ pending_provision st' = pending_provision st).
Proof.
  intros H. destruct (generated_code_history _ _ H) as (G1 & G0 & G2).
  repeat split.
  - intros T. destruct (G1 T) as (data & I & _). eauto.
  - intros (data & I). destruct (is_code_generated st); [reflexivity|].
    destruct (proj2 (G0 eq_refl) data I).
  - exact G2.
  - apply G0; assumption.
  - intros c I. destruct (G2 c I) as (data & J & _).
    apply (proj2 (G0 H0) data J).
  - destruct (poll_tick _ _ H1) as [_ ->].
    unfold provision_code_tick; simpl. rewrite H0. reflexivity.
  - destruct (poll_tick _ _ H1) as [_ ->].
    unfold provision_code_tick; simpl. rewrite H0. reflexivity.
Qed.

Lemma submit_only_after_generate_witness :
  is_code_generated (after first_poll) = true <->
  exists data, In (GenerateSettled (Resolved data)) first_poll.
Proof.
  assert (H : run step boot first_poll = Some (after first_poll))
    by (vm_compute; reflexivity).
  exact (proj1 (submit_only_after_generate _ _ H)).
Defined.

(** What the settlement of [generate_code] does before the component
    update. *)
Lemma generate_settled st r st' :
  step st (GenerateSettled r) = Some st' ->
  (0 < pending_generate st)%nat
  /\ st' = flush st (generate_code_settled r st).
Proof.
  simpl. destruct (Nat.ltb_spec 0 (pending_generate st)) as [Hp|Hp];
    [|discriminate].
  intros H. injection H as <-. auto.
Qed.

(** X1.  On the mounted pairing screen, before any confirmation, when
    [generate_code] fails: [is_error] is raised with the message
    ["Something went wrong! Try again!"] and the last navigation is to
    the setup-failed screen carrying it, whatever the agent's error
    text; the code on display, the flag [is_code_generated] and the
    three intervals are left as they were, so that rotation and polling
    go on until the component is destroyed. *)
Theorem failed_generate_is_surfaced st error st' :
  reachable st ->
  mounted st = true ->
  is_code_provision st = false ->
  step st (GenerateSettled (Rejected error)) = Some st' ->
  is_error st' = true
  /\ error_message st' = "Something went wrong! Try again!"
  /\ (exists l,
        navigated st' = l ++ [setup_failed "Something went wrong! Try again!"])
  /\ provision_code st' = provision_code st
  /\ is_code_generated st' = is_code_generated st
  /\ generate_code_process st' = generate_code_process st
  /\ provision_code_process st' = provision_code_process st
  /\ update_timer st' = update_timer st.
Proof.
  intros Hst M P H.
  pose proof (pairing_reachable_inv _ Hst) as Hi.
  pose proof (pairing_inv_step _ _ _ Hi H) as [_ [_ Hf _ _]].
  destruct (generate_settled _ _ _ H) as [_ E].
  set (new := generate_code_settled (Rejected error) st) in *.
  destruct (flush_vars st new)
    as (F0 & F1 & F2 & F3 & F4 & _ & _ & F5 & _).
  rewrite <- E in F0, F1, F2, F3, F4, F5.
  subst new. simpl in F0, F1, F2, F3, F4, F5.
  rewrite M in F5. rewrite P in F2.
  split; [exact F4|]. split; [exact F3|]. split.
  { rewrite <- F3. apply Hf; assumption. }
  split; [exact F0|]. split; [exact F1|].
  rewrite E.
  destruct (flush_cases st (generate_code_settled (Rejected error) st))
    as [(-> & _) | (-> & _)]; [repeat split|].
  unfold reactive. simpl. rewrite P. repeat split.
Qed.

Lemma failed_generate_is_surfaced_witness :
  is_error (after no_code) = true.
Proof.
  assert (H : step boot (GenerateSettled (Rejected "transport error"))
              = Some (after no_code)) by (vm_compute; reflexivity).
  exact (proj1 (failed_generate_is_surfaced boot _ _
                  (reach_boot _ _) eq_refl eq_refl H)).
Defined.

(** A destroyed component never navigates. *)
Lemma unmounted_step st e st' :
  mounted st = false -> step st e = Some st' ->
  mounted st' = false /\ navigated st' = navigated st.
Proof.
  intros M H.
  assert (K : forall old new,
             mounted new = false -> navigated new = navigated st ->
             mounted (flush old new) = false
             /\ navigated (flush old new) = navigated st).
  { intros old new Mn Nn. unfold flush. rewrite Mn. simpl. auto. }
  destruct e as [d| | | |r|i r|]; simpl in H.
  - destruct (_ && _); [|discriminate]. injection H as <-. auto.
  - destruct (is_due _ _); [|discriminate]. injection H as <-.
    apply K; rewrite generate_code_req_eq; simpl; auto.
  - destruct (is_due _ _); [|discriminate]. injection H as <-.
    apply K; unfold provision_code_tick; simpl;
      destruct (is_code_generated st); simpl; auto.
  - destruct (is_due _ _); [|discriminate]. injection H as <-.
    apply K; unfold update_timer_tick; simpl;
      (destruct (is_code_generated st); [destruct (timeout st <=? 0)|]);
      simpl; auto.
  - destruct (0 <? pending_generate st)%nat; [|discriminate].
    injection H as <-. apply K; destruct r; simpl; auto.
  - destruct (nth_error (pending_provision st) i); [|discriminate].
    injection H as <-.
    apply K; unfold provision_code_settled; destruct r as [data|error]; simpl;
      try destruct (success data); try destruct (includes _ _); simpl; auto.
  - rewrite M in H. discriminate.
Qed.

Lemma unmounted_run evs : forall st st',
  mounted st = false -> run step st evs = Some st' ->
  mounted st' = false /\ navigated st' = navigated st.
Proof.
  induction evs as [|e evs IH]; simpl; intros st st' M H.
  - injection H as <-. auto.
  - destruct (step st e) as [s1|] eqn:Hs1; [|discriminate].
    destruct (unmounted_step _ _ _ M Hs1) as [M1 N1].
    destruct (IH _ _ M1 H) as [M2 N2]. split; [exact M2 | congruence].
Qed.

(** X2.  Destroying the pairing screen, at any time, clears its three
    intervals and lowers [apiInProgress]; from then on no timer callback
    runs, the agent is never called again and the page never navigates,
    whatever calls were outstanding and however they are answered. *)
Theorem destroy_silences_pairing st st' evs st'' :
  step st Destroy = Some st' ->
  run step st' evs = Some st'' ->
  cleared st' /\ apiInProgress st' = false
  /\ cleared st''
  /\ invoked st'' = invoked st
  /\ navigated st'' = navigated st
  /\ forall e, In e evs -> is_tick e = false.
Proof.
  intros H Hrun. simpl in H.
  destruct (mounted st); [|discriminate]. injection H as <-.
  assert (C : cleared (onDestroy st)) by (repeat split).
  destruct (cleared_run _ _ _ C Hrun) as [C2 I2].
  destruct (unmounted_run evs (onDestroy st) st'' eq_refl Hrun) as [_ N2].
  repeat split; try apply C2; auto.
  exact (no_tick_when_cleared _ _ _ C Hrun).
Qed.

Lemma destroy_silences_pairing_witness :
  navigated
    (after (left_while_polling
            ++ [ProvisionSettled 0 (Resolved {| success := true |})]))
  = navigated (after first_poll).
Proof.
  assert (H : step (after first_poll) Destroy
              = Some (after left_while_polling))
    by (vm_compute; reflexivity).
  assert (Hrun : run step (after left_while_polling)
                   [ProvisionSettled 0 (Resolved {| success := true |})]
                 = Some (after (left_while_polling
                                ++ [ProvisionSettled 0
                                      (Resolved {| success := true |})])))
    by (vm_compute; reflexivity).
  destruct (destroy_silences_pairing _ _ _ _ H Hrun) as (_ & _ & _ & _ & N & _).
  exact N.
Defined.

Lemma calls_unchanged st st' :
  invoked st' = invoked st ->
  generate_calls st' = generate_calls st
  /\ provision_calls st' = provision_calls st.
Proof.
  unfold generate_calls, provision_calls. intros ->. auto.
Qed.

Lemma calls_after_generate st st' :
  invoked st' = invoked st ++ [generate_code] ->
  generate_calls st' = generate_calls st + 1
  /\ provision_calls st' = provision_calls st.
Proof.
  unfold generate_calls, provision_calls. intros ->.
  rewrite !filter_app, !length_app. simpl. split; lia.
Qed.

Lemma calls_after_provision st st' c :
  invoked st' = invoked st ++ [provision_by_code c] ->
  generate_calls st' = generate_calls st
  /\ provision_calls st' = provision_calls st + 1.
Proof.
  unfold generate_calls, provision_calls. intros ->.
  rewrite !filter_app, !length_app. simpl. split; lia.
Qed.

Lemma provision_call_counted st c :
  In (provision_by_code c) (invoked st) -> 1 <= provision_calls st.
Proof.
  unfold provision_calls. intros I.
  assert (F : In (provision_by_code c)
                (filter (fun c => match c with
                                  | generate_code => false
                                  | provision_by_code _ => true
                                  end) (invoked st)))
    by (apply filter_In; auto).
  destruct (filter _ (invoked st)); [destruct F | simpl; lia].
Qed.

(** Clearing an interval, or leaving it alone, keeps the calls within
    its schedule. *)
Lemma rate_kept st st' :
  Core st -> Rate st ->
  now st' = now st ->
  invoked st' = invoked st ->
  (generate_code_process st' = generate_code_process st
   \/ generate_code_process st' = None) ->
  (provision_code_process st' = provision_code_process st
   \/ provision_code_process st' = None) ->
  Rate st'.
Proof.
  intros [_ Hg Hp _ _ _] [Rg Rp] En Ei Eg Ep.
  destruct (calls_unchanged _ _ Ei) as [Cg Cp].
  split; rewrite ?Cg, ?Cp, En.
  - destruct Eg as [-> | ->]; [exact Rg|].
    destruct (generate_code_process st) as [d|]; [|exact Rg].
    simpl in Hg. lia.
  - destruct Ep as [-> | ->]; [exact Rp|].
    destruct (provision_code_process st) as [d|]; [|exact Rp].
    simpl in Hp. lia.
Qed.

Lemma rate_flush old new : Core new -> Rate new -> Rate (flush old new).
Proof.
  intros HC HR.
  destruct (flush_cases old new) as [(-> & _) | (-> & _)]; [exact HR|].
  destruct (reactive_cases new) as [(_ & ->) | [(_ & _ & ->) | (_ & _ & ->)]];
    [| |exact HR]; apply (rate_kept new); auto.
Qed.

(** Projections of updated states, and nothing else. *)
Ltac fields :=
  cbn [provision_code is_code_generated is_code_provision
       error_message apiInProgress is_error timeout now
       generate_code_process provision_code_process update_timer
       mounted pending_generate pending_provision invoked navigated
       set_provision_code set_is_code_generated set_is_code_provision
       set_error_message set_apiInProgress set_is_error set_timeout
       set_now set_generate_code_process set_provision_code_process
       set_update_timer set_mounted set_pending_generate
       set_pending_provision set_invoked set_navigated goto
       clearIntervalProcess onDestroy].

Lemma rate_step st e st' :
  Core st -> Rate st -> step st e = Some st' -> Rate st'.
Proof.
  intros HC HR H. pose proof HR as [Rg Rp].
  destruct e as [d| | | |r|i r|].
  - simpl in H. destruct (0 <? d) eqn:Hd; [|discriminate].
    apply Z.ltb_lt in Hd.
    destruct (_ && _); [|discriminate]. injection H as <-.
    split.
    + change (match generate_code_process st with
              | Some d0 => 60000 * generate_calls st = d0
              | None => 60000 * generate_calls st <= now st + d + 60000
              end).
      destruct (generate_code_process st); lia.
    + change (match provision_code_process st with
              | Some d0 => 20000 * provision_calls st + 20000 <= d0
              | None => 20000 * provision_calls st <= now st + d
              end).
      destruct (provision_code_process st); lia.
  - destruct (rotation_tick _ _ H) as [Hdue ->].
    rewrite Hdue in Rg.
    destruct (calls_after_generate st
                (generate_code_req
                   (set_generate_code_process (Some (now st + 60000)) st)))
      as [Cg Cp]; [rewrite generate_code_req_eq; reflexivity|].
    split; rewrite ?Cg, ?Cp; rewrite generate_code_req_eq; fields; [lia|].
    exact Rp.
  - destruct (poll_tick _ _ H) as [Hdue ->].
    rewrite Hdue in Rp. unfold provision_code_tick. fields.
    destruct (is_code_generated st).
    + match goal with
      | |- Rate ?new =>
          destruct (calls_after_provision st new (provision_code st))
            as [Cg Cp]; [reflexivity|]
      end.
      split; rewrite ?Cg, ?Cp; fields; [exact Rg | lia].
    + match goal with
      | |- Rate ?new =>
          destruct (calls_unchanged st new) as [Cg Cp]; [reflexivity|]
      end.
      split; rewrite ?Cg, ?Cp; fields; [exact Rg | lia].
  - destruct (countdown_tick _ _ H) as [_ ->].
    apply (rate_kept st); auto;
      unfold update_timer_tick; simpl;
      (destruct (is_code_generated st); [destruct (timeout st <=? 0)|]);
      simpl; auto.
  - destruct (generate_settled _ _ _ H) as [_ ->].
    assert (HC' : Core (flush st (generate_code_settled r st))).
    { apply (core_step st (GenerateSettled r)); assumption. }
    destruct (flush_vars st (generate_code_settled r st))
      as (_ & _ & _ & _ & _ & _ & Fn & _ & _ & _ & Fi).
    apply (rate_kept st); auto.
    + rewrite Fn. destruct r; reflexivity.
    + rewrite Fi. destruct r; reflexivity.
    + destruct (flush_cases st (generate_code_settled r st))
        as [(-> & _) | (-> & _)]; [left; destruct r; reflexivity|].
      destruct (reactive_cases (generate_code_settled r st))
        as [(_ & ->) | [(_ & _ & ->) | (_ & _ & ->)]];
        [right; reflexivity | left; destruct r; reflexivity
         | left; destruct r; reflexivity].
    + destruct (flush_cases st (generate_code_settled r st))
        as [(-> & _) | (-> & _)]; [left; destruct r; reflexivity|].
      destruct (reactive_cases (generate_code_settled r st))
        as [(_ & ->) | [(_ & _ & ->) | (_ & _ & ->)]];
        [right; reflexivity | left; destruct r; reflexivity
         | left; destruct r; reflexivity].
  - destruct (poll_settled _ _ _ _ H) as [_ ->].
    assert (F : forall new,
               new = provision_code_settled i r st ->
               now new = now st /\ invoked new = invoked st
               /\ generate_code_process new = generate_code_process st
               /\ provision_code_process new = provision_code_process st).
    { intros new ->. unfold provision_code_settled.
      destruct r as [data|error]; simpl;
        [destruct (success data) | destruct (includes _ _)];
        simpl; auto. }
    destruct (F _ eq_refl) as (Fn0 & Fi0 & Fg0 & Fp0).
    destruct (flush_vars st (provision_code_settled i r st))
      as (_ & _ & _ & _ & _ & _ & Fn & _ & _ & _ & Fi).
    apply (rate_kept st); auto; try congruence.
    + destruct (flush_cases st (provision_code_settled i r st))
        as [(-> & _) | (-> & _)]; [left; exact Fg0|].
      destruct (reactive_cases (provision_code_settled i r st))
        as [(_ & ->) | [(_ & _ & ->) | (_ & _ & ->)]];
        [right; reflexivity | left; exact Fg0 | left; exact Fg0].
    + destruct (flush_cases st (provision_code_settled i r st))
        as [(-> & _) | (-> & _)]; [left; exact Fp0|].
      destruct (reactive_cases (provision_code_settled i r st))
        as [(_ & ->) | [(_ & _ & ->) | (_ & _ & ->)]];
        [right; reflexivity | left; exact Fp0 | left; exact Fp0].
  - simpl in H. destruct (mounted st); [|discriminate]. injection H as <-.
    apply (rate_kept st); auto.
Qed.

Lemma reachable_rate st : reachable st -> Core st /\ Rate st.
Proof.
  intros Hst.
  revert st Hst.
  apply (JsFacts.reachable_invariant step boot (fun st => Core st /\ Rate st)).
  - split; [apply pairing_inv_boot | split; simpl; reflexivity].
  - intros st e st' [HC HR] H.
    split; [eapply core_step | eapply rate_step]; eassumption.
Qed.

(** X3.  The pairing screen never calls the agent faster than its
    intervals allow: at any time [t] ms after entry it has made at most
    [1 + t / 60000] calls of [generate_code] and at most [t / 20000]
    calls of [provision_by_code], so no code is submitted during the
    first 20 seconds; and while the rotation interval is armed no
    rotation has been skipped, the calls of [generate_code] numbering
    exactly one per minute up to the next tick. *)
Theorem agent_call_rate st :
  reachable st ->
  60000 * generate_calls st <= now st + 60000
  /\ 20000 * provision_calls st <= now st
  /\ (forall c, In (provision_by_code c) (invoked st) -> 20000 <= now st)
  /\ (forall d,
        generate_code_process st = Some d -> 60000 * generate_calls st = d).
Proof.
  intros Hst. destruct (reachable_rate _ Hst) as [[_ Hg Hp _ _ _] [Rg Rp]].
  assert (P : 20000 * provision_calls st <= now st).
  { destruct (provision_code_process st) as [d|]; [simpl in Hp; lia | exact Rp]. }
  split; [|split; [exact P | split]].
  - destruct (generate_code_process st) as [d|]; [simpl in Hg; lia | exact Rg].
  - intros c I. pose proof (provision_call_counted _ _ I). lia.
  - intros d E. rewrite E in Rg. exact Rg.
Qed.

Lemma agent_call_rate_witness :
  60000 * generate_calls (after two_minutes) <= now (after two_minutes) + 60000.
Proof.
  assert (Hreach : reachable (after two_minutes)).
  { apply (JsFacts.run_reachable step boot two_minutes).
    vm_compute. reflexivity. }
  exact (proj1 (agent_call_rate _ Hreach)).
Defined.

(** A step navigates at most once, and then to one of two screens. *)
Lemma navigation_step st e st' :
  step st e = Some st' ->
  navigated st' = navigated st
  \/ exists r, pairing_route r /\ navigated st' = navigated st ++ [r].
Proof.
  intros H.
  assert (K : forall old new,
             navigated new = navigated st ->
             navigated (flush old new) = navigated st
             \/ exists r, pairing_route r
                          /\ navigated (flush old new) = navigated st ++ [r]).
  { intros old new <-.
    destruct (flush_cases old new) as [(-> & _) | (-> & _)]; [auto|].
    destruct (reactive_cases new) as [(_ & ->) | [(_ & _ & ->) | (_ & _ & ->)]];
      [right | right | auto].
    - exists configure_machine. split; [left; reflexivity | reflexivity].
    - exists (setup_failed (error_message new)).
      split; [right; eauto | reflexivity]. }
  destruct e as [d| | | |r|i r|].
  - simpl in H. destruct (_ && _); [|discriminate]. injection H as <-. auto.
  - destruct (rotation_tick _ _ H) as [_ ->].
    rewrite generate_code_req_eq. auto.
  - destruct (poll_tick _ _ H) as [_ ->].
    unfold provision_code_tick; simpl. destruct (is_code_generated st); auto.
  - destruct (countdown_tick _ _ H) as [_ ->].
    unfold update_timer_tick; simpl.
    destruct (is_code_generated st); [destruct (timeout st <=? 0)|]; auto.
  - destruct (generate_settled _ _ _ H) as [_ ->].
    apply K. destruct r; reflexivity.
  - destruct (poll_settled _ _ _ _ H) as [_ ->].
    apply K. unfold provision_code_settled.
    destruct r as [data|error]; simpl;
      [destruct (success data) | destruct (includes _ _)]; reflexivity.
  - simpl in H. destruct (mounted st); [|discriminate]. injection H as <-. auto.
Qed.

Lemma only_pairing_routes st :
  reachable st -> forall r, In r (navigated st) -> pairing_route r.
Proof.
  revert st.
  apply (JsFacts.reachable_invariant step boot
           (fun st => forall r, In r (navigated st) -> pairing_route r)).
  - intros r [].
  - intros st e st' IH H r I.
    destruct (navigation_step _ _ _ H) as [E | (x & Px & E)];
      rewrite E in I; [auto|].
    apply in_app_or in I as [I | [<- | []]]; auto.
Qed.

(** X4.  The pairing screen navigates only to the identity-resolution
    screen and to the setup-failed screen, and while it is mounted its
    navigation agrees with its flags: with no navigation so far no flag
    is raised and the three intervals are armed; with the code confirmed
    the intervals are cleared and the last navigation is to identity
    resolution; with an error and no confirmation the last navigation is
    to the setup-failed screen carrying the current message.  Once
    destroyed, its intervals are cleared. *)
Theorem navigation_agrees_with_flags st :
  reachable st ->
  (forall r, In r (navigated st) -> pairing_route r)
  /\ (mounted st = true ->
      (navigated st = [] ->
       is_code_provision st = false /\ is_error st = false /\ all_armed st)
      /\ (is_code_provision st = true ->
          cleared st /\ exists l, navigated st = l ++ [configure_machine])
      /\ (is_code_provision st = false -> is_error st = true ->
          exists l, navigated st = l ++ [setup_failed (error_message st)]))
  /\ (mounted st = false -> cleared st).
Proof.
  intros Hst. destruct (pairing_reachable_inv _ Hst) as [_ HR].
  split; [exact (only_pairing_routes _ Hst)|]. split.
  - intros M. split; [exact (on_pairing_screen _ HR M)|].
    split; [exact (routing_confirmed _ HR M) | exact (routing_failed _ HR M)].
  - exact (routing_destroyed _ HR).
Qed.

Lemma navigation_agrees_with_flags_witness :
  pairing_route (setup_failed "Something went wrong! Try again!").
Proof.
  assert (Hreach : reachable (after no_code)).
  { apply (JsFacts.run_reachable step boot no_code). vm_compute. reflexivity. }
  apply (proj1 (navigation_agrees_with_flags _ Hreach)).
  vm_compute. left. reflexivity.
Defined.

(** X5.  [apiInProgress] never holds back a code request: every rotation
    tick, whatever the flags, raises [apiInProgress], resets the
    countdown to 60 and calls [generate_code]; it falls on a positive
    multiple of 60000 ms and is re-armed 60000 ms later; until the
    answer arrives the old code stays in place and keeps being polled. *)
Theorem rotation_always_requests st st' :
  reachable st ->
  step st Fire_generate_code_process = Some st' ->
  invoked st' = invoked st ++ [generate_code]
  /\ pending_generate st' = S (pending_generate st)
  /\ apiInProgress st' = true
  /\ timeout st' = 60
  /\ 0 < now st /\ now st mod 60000 = 0
  /\ generate_code_process st' = Some (now st + 60000)
  /\ provision_code st' = provision_code st
  /\ is_code_generated st' = is_code_generated st
  /\ provision_code_process st' = provision_code_process st.
Proof.
  intros Hst H. destruct (pairing_reachable_inv _ Hst) as [[_ Hg _ _ _ _] _].
  destruct (rotation_tick _ _ H) as [Hdue ->].
  rewrite Hdue in Hg. destruct Hg as (_ & Hpos & Hmod).
  rewrite generate_code_req_eq. repeat split; assumption.
Qed.

Lemma rotation_always_requests_witness :
  apiInProgress
    (after (removelast wrong_code_minute)) = true.
Proof.
  assert (Hreach : reachable (after (removelast (removelast wrong_code_minute)))).
  { apply (JsFacts.run_reachable step boot
             (removelast (removelast wrong_code_minute))).
    vm_compute. reflexivity. }
  assert (H : step (after (removelast (removelast wrong_code_minute)))
                Fire_generate_code_process
              = Some (after (removelast wrong_code_minute)))
    by (vm_compute; reflexivity).
  destruct (rotation_always_requests _ _ Hreach H) as (_ & _ & A & _).
  exact A.
Defined.

End LinkMachineFacts.

(** ** The configured screen *)

Module MachineInfoFacts.
Import MachineInfo.

(** Destroying the page leaves both intervals armed as they were. *)
Lemma destroy_keeps_intervals period st st' :
  step period st Destroy = Some st' ->
  health_timer st' = health_timer st
  /\ metadata_timer st' = metadata_timer st
  /\ mounted st' = false.
Proof.
  simpl. destruct (mounted st); [|discriminate].
  intros H. injection H as <-. repeat split.
Qed.

(** After destruction the health interval still calls the agent. *)
Lemma health_tick_after_destroy period st st' :
  mounted st = false ->
  step period st Fire_health_timer = Some st' ->
  invoked st' = invoked st ++ [get_ping_status]
  /\ health_timer st' = Some (now st + 10000).
Proof.
  intros M. simpl. destruct (is_due (now st) (health_timer st)); [|discriminate].
  intros H. injection H as <-. unfold task, flush. simpl. rewrite M.
  split; reflexivity.
Qed.

(** C4: the code at the failing input.  The page is torn down at 0 ms
    with [is_active] set and no error; both intervals keep firing, the
    agent is called nine more times, and the failed health check at
    10000 ms lowers [is_active], raises [is_error] and records the
    message, with both intervals still armed. *)
Theorem cadences_outlive_teardown :
  option_map observe (run (step 1200) (boot 1200 configured) torn_down)
  = Some (false, false, true,
          "Machine agent not running or there is no internet connectivity",
          [get_ping_status; get_machine_info "identity.machine.name";
           get_machine_info "identity.machine.name";
           get_machine_info "identity.machine.name";
           get_machine_info "identity.machine.name";
           get_machine_info "identity.machine.name";
           get_machine_info "identity.machine.name";
           get_machine_info "identity.machine.name";
           get_machine_info "identity.machine.name";
           get_machine_info "identity.machine.name";
           get_ping_status],
          Some 20000, Some 10800).
Proof. vm_compute. reflexivity. Qed.

(** The component update touches the loading flag and the store only. *)
Lemma info_flush_frame old new :
  storeData (flush old new) = storeData new
  /\ machine_id (flush old new) = machine_id new
  /\ machine_name (flush old new) = machine_name new
  /\ machine_icon (flush old new) = machine_icon new
  /\ is_active (flush old new) = is_active new
  /\ is_error (flush old new) = is_error new
  /\ error_message (flush old new) = error_message new
  /\ now (flush old new) = now new
  /\ health_timer (flush old new) = health_timer new
  /\ metadata_timer (flush old new) = metadata_timer new
  /\ loading_timer (flush old new) = loading_timer new
  /\ mounted (flush old new) = mounted new
  /\ pending_ping (flush old new) = pending_ping new
  /\ pending_info (flush old new) = pending_info new
  /\ invoked (flush old new) = invoked new.
Proof.
  unfold flush, reactive_store, reactive_loading. cbv zeta.
  repeat match goal with
         | |- context [if ?b then _ else _] => destruct b eqn:?; simpl
         end; repeat split; assumption.
Qed.

Lemma info_flush_loading old new :
  (is_loading (flush old new) = is_loading new
   \/ is_loading (flush old new) = false)
  /\ (mounted new = true -> is_error old = false -> is_error new = true ->
      is_loading (flush old new) = false).
Proof.
  unfold flush, reactive_store, reactive_loading. cbv zeta. split.
  - repeat match goal with
           | |- context [if ?b then _ else _] => destruct b; simpl
           end; auto.
  - intros -> -> E. rewrite E. simpl.
    destruct (negb (String.eqb (machine_name old) (machine_name new))
              || negb (String.eqb (machine_icon old) (machine_icon new)));
      [destruct (truthy (machine_name new) || truthy (machine_icon new))|];
      simpl; rewrite E; reflexivity.
Qed.

Lemma info_flush_store old new :
  (machineInfo (flush old new) = machineInfo new
   /\ (mounted new = false
       \/ machine_name new = machine_name old
          /\ machine_icon new = machine_icon old
       \/ truthy (machine_name new) || truthy (machine_icon new) = false))
  \/ (mounted new = true
      /\ machineInfo (flush old new) =
         {| id := id (storeData new);
            name := Some (machine_name new);
            icon := Some (machine_icon new) |}).
Proof.
  unfold flush, reactive_store, reactive_loading. cbv zeta.
  destruct (mounted new); [|auto].
  destruct (String.eqb_spec (machine_name old) (machine_name new)) as [En|En];
    destruct (String.eqb_spec (machine_icon old) (machine_icon new)) as [Ei|Ei];
    simpl;
    try (destruct (truthy (machine_name new) || truthy (machine_icon new)) eqn:T);
    destruct (negb (Bool.eqb (is_error old) (is_error new)));
    simpl; try destruct (is_error new); simpl; auto 6.
Qed.

Lemma mirror_flush store base old new :
  Mirror store base ->
  machine_name old = machine_name base ->
  machine_icon old = machine_icon base ->
  is_error old = is_error base ->
  storeData new = storeData base ->
  mounted new = mounted base ->
  machineInfo new = machineInfo base ->
  truthy (machine_name new) = true ->
  match loading_timer new with
  | Some d => d = 3000 /\ 0 <= now new <= 3000
  | None => 3000 <= now new /\ is_loading new = false
  end ->
  (is_loading new = is_loading base \/ is_loading new = false) ->
  Mirror store (flush old new).
Proof.
  intros [Bs Bn Bi Bst Bl Be] On Oi Oe Ns Nm Ni Nn Nl Nld.
  destruct (info_flush_frame old new)
    as (F1 & _ & F3 & F4 & _ & F6 & _ & F8 & _ & _ & F11 & F12 & _).
  destruct (info_flush_loading old new) as [L1 L2].
  split; rewrite ?F1, ?F3, ?F4, ?F6, ?F8, ?F11, ?F12.
  - congruence.
  - exact Nn.
  - destruct (info_flush_store old new) as [(-> & _) | (_ & ->)];
      [congruence | simpl; congruence].
  - intros M.
    destruct (info_flush_store old new)
      as [(-> & [C | [(En & Ei) | C]]) | (_ & ->)].
    + congruence.
    + rewrite Ni, En, Ei, On, Oi. apply Bst. congruence.
    + rewrite Nn in C. discriminate.
    + rewrite Ns, Bs. reflexivity.
  - destruct (loading_timer new) as [d|]; [exact Nl|].
    destruct Nl as [Hn Hl]. split; [exact Hn|].
    destruct L1 as [-> | ->]; auto.
  - intros M E.
    destruct (is_error old) eqn:Eo.
    + assert (Hb : is_loading base = false)
        by (apply Be; congruence).
      destruct L1 as [-> | ->]; [|reflexivity].
      destruct Nld as [-> | ->]; auto.
    + apply L2; auto.
Qed.

Lemma mirror_boot period store : Mirror store (boot period store).
Proof.
  split; simpl; auto; try discriminate. repeat split; lia.
Qed.

Lemma mirror_step period store st e st' :
  Mirror store st -> step period st e = Some st' -> Mirror store st'.
Proof.
  intros HM H. pose proof HM as [Bs Bn Bi Bst Bl Be].
  destruct e as [d| | | |r|i r|]; simpl in H.
  - destruct (Z.ltb_spec 0 d); [|discriminate].
    destruct (not_overdue _ (health_timer st)); [|discriminate].
    destruct (not_overdue _ (metadata_timer st)); [|discriminate].
    destruct (not_overdue (now st + d) (loading_timer st)) eqn:Hl;
      [|discriminate].
    injection H as <-. split; simpl; auto.
    destruct (loading_timer st) as [t|]; simpl in Hl.
    + apply Z.leb_le in Hl. destruct Bl as (-> & Hn). split; [reflexivity | lia].
    + split; [lia | apply Bl].
  - destruct (is_due _ _); [|discriminate]. injection H as <-.
    apply (mirror_flush store st); simpl; auto.
  - destruct (is_due _ _); [|discriminate]. injection H as <-.
    apply (mirror_flush store st); simpl; auto.
  - destruct (is_due (now st) (loading_timer st)) eqn:Hd; [|discriminate].
    injection H as <-.
    apply (mirror_flush store st); simpl; auto.
    destruct (loading_timer st) as [t|]; [|discriminate].
    simpl in Hd. apply Z.eqb_eq in Hd. destruct Bl as (-> & Hn).
    split; [lia | reflexivity].
  - destruct (0 <? pending_ping st)%nat; [|discriminate].
    injection H as <-.
    apply (mirror_flush store st); auto; destruct r; simpl; auto.
  - destruct (nth_error (pending_info st) i) as [stage|]; [|discriminate].
    injection H as <-.
    apply (mirror_flush store st); auto;
      destruct stage, r; simpl; auto.
    + destruct (truthy name_value) eqn:T; [exact T | reflexivity].
  - destruct (mounted st); [|discriminate]. injection H as <-.
    split; simpl; auto; discriminate.
Qed.

Lemma reachable_mirror period store st :
  reachable period store st -> Mirror store st.
Proof.
  apply JsFacts.reachable_invariant;
    [apply mirror_boot | apply mirror_step].
Qed.

(** X11.  On the configured screen the displayed name is never empty (an
    empty name from the agent is replaced by ["My Machine"]); the store
    keeps the id it held on entry, also across destruction; and while
    the page is mounted the store carries exactly that id with the
    displayed name and icon. *)
Theorem store_mirrors_display period store st :
  reachable period store st ->
  machine_name st <> ""
  /\ id (machineInfo st) = id store
  /\ (mounted st = true ->
      machineInfo st =
        {| id := id store;
           name := Some (machine_name st);
           icon := Some (machine_icon st) |}).
Proof.
  intros Hst. destruct (reachable_mirror _ _ _ Hst) as [_ Bn Bi Bst _ _].
  split; [|split; assumption].
  intros E. rewrite E in Bn. discriminate.
Qed.

Lemma store_mirrors_display_witness :
  machine_name (after agent_stops) <> "".
Proof.
  assert (Hreach : reachable 1200 configured (after agent_stops)).
  { apply (JsFacts.run_reachable (step 1200) (boot 1200 configured) agent_stops).
    vm_compute. reflexivity. }
  exact (proj1 (store_mirrors_display _ _ _ Hreach)).
Defined.

Lemma Forall_pieces {A : Type} (P : A -> Prop) i : forall l,
  Forall P l -> Forall P (firstn i l) /\ Forall P (skipn i l).
Proof.
  induction i as [|i IH]; intros l H; simpl; [auto|].
  destruct l as [|x l]; [auto|].
  inversion H as [|? ? Hx Hl]; subst.
  destruct (IH _ Hl). auto.
Qed.

Lemma Forall_remove_nth {A : Type} (P : A -> Prop) i l :
  Forall P l -> Forall P (remove_nth i l).
Proof.
  intros H. unfold remove_nth. apply Forall_app. split.
  - apply (Forall_pieces P i l H).
  - apply (Forall_pieces P (S i) l H).
Qed.

(** What the page shows while no metadata has arrived. *)
Lemma defaults_step period st e st' :
  all_info_fails e = true ->
  step period st e = Some st' ->
  machine_name st = "My Machine" /\ machine_icon st = ""
  /\ machine_id st = Some "-"
  /\ Forall (fun stage => stage = AwaitName) (pending_info st)
  /\ ~ In (get_machine_info "identity.machine.icon_url") (invoked st) ->
  machine_name st' = "My Machine" /\ machine_icon st' = ""
  /\ machine_id st' = Some "-"
  /\ Forall (fun stage => stage = AwaitName) (pending_info st')
  /\ ~ In (get_machine_info "identity.machine.icon_url") (invoked st')
  /\ machineInfo st' = machineInfo st.
Proof.
  intros Hf H (Qn & Qi & Qd & Qp & Qc).
  assert (K : forall old new,
             machine_name old = machine_name st ->
             machine_icon old = machine_icon st ->
             machine_name new = machine_name st ->
             machine_icon new = machine_icon st ->
             machine_id new = machine_id st ->
             machineInfo new = machineInfo st ->
             Forall (fun stage => stage = AwaitName) (pending_info new) ->
             ~ In (get_machine_info "identity.machine.icon_url") (invoked new) ->
             machine_name (flush old new) = "My Machine"
             /\ machine_icon (flush old new) = ""
             /\ machine_id (flush old new) = Some "-"
             /\ Forall (fun stage => stage = AwaitName)
                  (pending_info (flush old new))
             /\ ~ In (get_machine_info "identity.machine.icon_url")
                  (invoked (flush old new))
             /\ machineInfo (flush old new) = machineInfo st).
  { intros old new On Oi Nn Ni Nd Nm Np Nc.
    destruct (info_flush_frame old new)
      as (_ & -> & -> & -> & _ & _ & _ & _ & _ & _ & _ & _ & _ & -> & ->).
    repeat split; try congruence; auto.
    rewrite <- Nm. unfold flush, reactive_store, reactive_loading. cbv zeta.
    rewrite On, Oi, Nn, Ni, !String.eqb_refl. simpl.
    destruct (mounted new); [|reflexivity].
    destruct (negb _); [destruct (is_error new)|]; reflexivity. }
  destruct e as [d| | | |r|i r|]; simpl in H.
  - destruct (_ && _); [|discriminate]. injection H as <-.
    repeat split; assumption.
  - destruct (is_due _ _); [|discriminate]. injection H as <-.
    apply K; simpl; auto. intros I. apply in_app_or in I as [I | [I | []]];
      [auto | discriminate].
  - destruct (is_due _ _); [|discriminate]. injection H as <-.
    apply K; simpl; auto.
    + apply Forall_app. split; [exact Qp | repeat constructor].
    + intros I. apply in_app_or in I as [I | [I | []]];
        [auto | discriminate].
  - destruct (is_due _ _); [|discriminate]. injection H as <-.
    apply K; simpl; auto.
  - destruct (0 <? pending_ping st)%nat; [|discriminate].
    injection H as <-. apply K; destruct r; simpl; auto.
  - destruct (nth_error (pending_info st) i) as [stage|]; [|discriminate].
    injection H as <-. destruct r as [data|error]; [discriminate|].
    apply K; destruct stage; simpl; auto;
      apply Forall_remove_nth; exact Qp.
  - destruct (mounted st); [|discriminate]. injection H as <-.
    repeat split; assumption.
Qed.

(** X12.  While no [get_machine_info] call succeeds, a failed refresh
    changes nothing: the page keeps showing the default name
    ["My Machine"] with no icon, [machine_id] keeps its placeholder, the
    store stays as entry left it, and the icon is never asked for, since
    the service layer asks for it only once the name has arrived. *)
Theorem failed_refresh_changes_nothing period store evs st :
  run (step period) (boot period store) evs = Some st ->
  forallb all_info_fails evs = true ->
  machine_name st = "My Machine"
  /\ machine_icon st = ""
  /\ machine_id st = Some "-"
  /\ machineInfo st =
       {| id := id store; name := Some "My Machine"; icon := Some "" |}
  /\ ~ In (get_machine_info "identity.machine.icon_url") (invoked st).
Proof.
  intros Hrun Hf.
  assert (G : forall evs s s',
             run (step period) s evs = Some s' ->
             forallb all_info_fails evs = true ->
             machine_name s = "My Machine" /\ machine_icon s = ""
             /\ machine_id s = Some "-"
             /\ Forall (fun stage => stage = AwaitName) (pending_info s)
             /\ ~ In (get_machine_info "identity.machine.icon_url") (invoked s) ->
             (machine_name s' = "My Machine" /\ machine_icon s' = ""
              /\ machine_id s' = Some "-"
              /\ Forall (fun stage => stage = AwaitName) (pending_info s')
              /\ ~ In (get_machine_info "identity.machine.icon_url") (invoked s'))
             /\ machineInfo s' = machineInfo s).
  { clear. induction evs as [|e evs IH]; simpl; intros s s' H F Q.
    - injection H as <-. auto.
    - destruct (step period s e) as [s1|] eqn:Hs1; [|discriminate].
      apply andb_prop in F as [Fe F].
      destruct (defaults_step _ _ _ _ Fe Hs1 Q) as (A & B & C & D & E & M).
      destruct (IH _ _ H F (conj A (conj B (conj C (conj D E))))) as [Q' M'].
      split; [exact Q' | congruence]. }
  assert (Q : machine_name (boot period store) = "My Machine"
              /\ machine_icon (boot period store) = ""
              /\ machine_id (boot period store) = Some "-"
              /\ Forall (fun stage => stage = AwaitName)
                   (pending_info (boot period store))
              /\ ~ In (get_machine_info "identity.machine.icon_url")
                   (invoked (boot period store))).
  { simpl. repeat split; auto.
    intros [I | [I | []]]; discriminate. }
  destruct (G _ _ _ Hrun Hf Q) as [(A & B & C & _ & E) M].
  rewrite M. repeat split; auto.
Qed.

Lemma failed_refresh_changes_nothing_witness :
  machine_name (after torn_down) = "My Machine".
Proof.
  assert (H : run (step 1200) (boot 1200 configured) torn_down
              = Some (after torn_down)) by (vm_compute; reflexivity).
  exact (proj1 (failed_refresh_changes_nothing _ _ _ _ H eq_refl)).
Defined.

(** X13.  On the mounted configured screen a failed health check lowers
    [is_active], raises [is_error] with its message and lowers the
    loading flag; it leaves the displayed name, icon and store and both
    intervals as they were, so the screen stays and keeps checking. *)
Theorem failed_health_check_is_flagged period store st error st' :
  reachable period store st ->
  mounted st = true ->
  step period st (PingSettled (Rejected error)) = Some st' ->
  is_active st' = false
  /\ is_error st' = true
  /\ error_message st' =
       "Machine agent not running or there is no internet connectivity"
  /\ is_loading st' = false
  /\ machine_name st' = machine_name st
  /\ machine_icon st' = machine_icon st
  /\ machineInfo st' = machineInfo st
  /\ health_timer st' = health_timer st
  /\ metadata_timer st' = metadata_timer st
  /\ mounted st' = true.
Proof.
  intros Hst M H.
  pose proof (reachable_mirror _ _ _ Hst) as HM.
  pose proof (mirror_step _ _ _ _ _ HM H) as [_ _ _ Bst' _ Be'].
  destruct HM as [Bs _ _ Bst _ _].
  simpl in H. destruct (0 <? pending_ping st)%nat; [|discriminate].
  injection H as <-. unfold task in *.
  set (new := check_active_status_settled (Rejected error) st) in *.
  destruct (info_flush_frame st new)
    as (_ & _ & F3 & F4 & F5 & F6 & F7 & _ & F9 & F10 & _ & F12 & _).
  subst new. simpl in F3, F4, F5, F6, F7, F9, F10, F12.
  rewrite M in F12.
  repeat split; try assumption.
  - apply Be'; assumption.
  - rewrite (Bst' F12). simpl. rewrite F3, F4. symmetry. apply Bst. exact M.
Qed.

Lemma failed_health_check_is_flagged_witness :
  is_active (after (agent_stops ++ [PingSettled (Rejected "transport error")]))
  = false.
Proof.
  assert (Hreach : reachable 1200 configured (after agent_stops)).
  { apply (JsFacts.run_reachable (step 1200) (boot 1200 configured) agent_stops).
    vm_compute. reflexivity. }
  assert (M : mounted (after agent_stops) = true) by (vm_compute; reflexivity).
  assert (H : step 1200 (after agent_stops)
                (PingSettled (Rejected "transport error"))
              = Some (after (agent_stops
                             ++ [PingSettled (Rejected "transport error")])))
    by (vm_compute; reflexivity).
  exact (proj1 (failed_health_check_is_flagged _ _ _ _ _ Hreach M H)).
Defined.

Lemma sticky_step period st e st' :
  step period st e = Some st' ->
  (is_error st = true -> is_error st' = true)
  /\ (is_loading st = false -> is_loading st' = false)
  /\ (mounted st = false -> mounted st' = false).
Proof.
  intros H.
  assert (K : forall old new,
             (is_error st = true -> is_error new = true) ->
             (is_loading st = false -> is_loading new = false) ->
             (mounted st = false -> mounted new = false) ->
             (is_error st = true -> is_error (flush old new) = true)
             /\ (is_loading st = false -> is_loading (flush old new) = false)
             /\ (mounted st = false -> mounted (flush old new) = false)).
  { intros old new A B C.
    destruct (info_flush_frame old new)
      as (_ & _ & _ & _ & _ & -> & _ & _ & _ & _ & _ & -> & _).
    destruct (info_flush_loading old new) as [[-> | ->] _]; auto. }
  destruct e as [d| | | |r|i r|]; simpl in H.
  - destruct (_ && _); [|discriminate]. injection H as <-. auto.
  - destruct (is_due _ _); [|discriminate]. injection H as <-. apply K; auto.
  - destruct (is_due _ _); [|discriminate]. injection H as <-. apply K; auto.
  - destruct (is_due _ _); [|discriminate]. injection H as <-. apply K; auto.
  - destruct (0 <? pending_ping st)%nat; [|discriminate].
    injection H as <-. apply K; destruct r; simpl; auto.
  - destruct (nth_error (pending_info st) i) as [stage|]; [|discriminate].
    injection H as <-. apply K; destruct stage, r; simpl; auto.
  - destruct (mounted st); [|discriminate]. injection H as <-. simpl. auto.
Qed.

(** X14.  The configured screen never lowers its error flag and never
    raises its loading flag again: once [is_error] is set it stays set
    through every later event, successful health checks included, and
    once [is_loading] is down it stays down. *)
Theorem error_flag_is_sticky period evs st st' :
  run (step period) st evs = Some st' ->
  (is_error st = true -> is_error st' = true)
  /\ (is_loading st = false -> is_loading st' = false).
Proof.
  revert st. induction evs as [|e evs IH]; simpl; intros st H.
  - injection H as <-. auto.
  - destruct (step period st e) as [s1|] eqn:Hs1; [|discriminate].
    destruct (sticky_step _ _ _ _ Hs1) as (A & B & _).
    destruct (IH _ H) as [A' B']. auto.
Qed.

Lemma error_flag_is_sticky_witness :
  is_error (after (tl agent_stops
                   ++ [PingSettled (Rejected "transport error");
                       PingSettled (Resolved {| code := "success" |})]))
  = true.
Proof.
  assert (H : run (step 1200)
                (after (tl agent_stops
                        ++ [PingSettled (Rejected "transport error")]))
                [PingSettled (Resolved {| code := "success" |})]
              = Some (after (tl agent_stops
                             ++ [PingSettled (Rejected "transport error");
                                 PingSettled
                                   (Resolved {| code := "success" |})])))
    by (vm_compute; reflexivity).
  apply (proj1 (error_flag_is_sticky _ _ _ _ H)).
  vm_compute. reflexivity.
Defined.

(** A successful check after a failed one: the screen is active again
    and the error flag is still up. *)
Example error_outlives_recovery :
  option_map (fun st => (is_active st, is_error st))
    (run (step 1200) (boot 1200 configured)
       (tl agent_stops
        ++ [PingSettled (Rejected "transport error");
            PingSettled (Resolved {| code := "success" |})]))
  = Some (true, true).
Proof. vm_compute. reflexivity. Qed.

(** X15.  The loading flag of the configured screen is lowered 3000 ms
    after entry at the latest: it is down in every reachable state whose
    clock has passed 3000 ms, and already earlier on the mounted screen
    once the error flag is up; the timer that lowers it fires at
    3000 ms exactly and once. *)
Theorem loading_ends_by_3000 period store st :
  reachable period store st ->
  (3000 < now st -> is_loading st = false)
  /\ (mounted st = true -> is_error st = true -> is_loading st = false)
  /\ (forall st',
        step period st Fire_loading_timer = Some st' ->
        now st = 3000 /\ is_loading st' = false /\ loading_timer st' = None).
Proof.
  intros Hst. pose proof (reachable_mirror _ _ _ Hst) as HM.
  pose proof HM as [_ _ _ _ Bl Be].
  split; [|split; [exact Be|]].
  - intros Hn. destruct (loading_timer st) as [d|]; [lia | apply Bl].
  - intros st' H.
    pose proof (mirror_step _ _ _ _ _ HM H) as [_ _ _ _ Bl' _].
    simpl in H.
    destruct (loading_timer st) as [d|] eqn:E; simpl in H; [|discriminate].
    destruct (Z.eqb_spec d (now st)); [|discriminate]. injection H as <-.
    destruct Bl as (-> & _). unfold task in *.
    destruct (info_flush_frame (set_loading_timer None st)
                (set_is_loading false (set_loading_timer None st)))
      as (_ & _ & _ & _ & _ & _ & _ & _ & _ & _ & F11 & _).
    rewrite F11 in Bl'. simpl in Bl'.
    split; [congruence|]. split; [apply Bl' | exact F11].
Qed.

Lemma loading_ends_by_3000_witness :
  is_loading (after agent_stops) = false.
Proof.
  assert (Hreach : reachable 1200 configured (after agent_stops)).
  { apply (JsFacts.run_reachable (step 1200) (boot 1200 configured) agent_stops).
    vm_compute. reflexivity. }
  apply (proj1 (loading_ends_by_3000 _ _ _ Hreach)).
  vm_compute. reflexivity.
Defined.

End MachineInfoFacts.

(** ** The landing page *)

Module LandingFacts.
Import Landing.

Lemma clicks_invoke c st :
  clicks (invoke c st) =
  match c with
  | get_machine_provision_status => S (clicks st)
  | _ => clicks st
  end.
Proof.
  unfold clicks. simpl. rewrite filter_app, length_app. simpl.
  destruct c; simpl; lia.
Qed.

Lemma landing_inv_boot : Inv boot.
Proof.
  split; simpl; auto. intros r [].
Qed.

Lemma landing_inv_step st e st' :
  Inv st -> step st e = Some st' -> Inv st'.
Proof.
  intros [Ha Hs Hr [Hn Hi]] H.
  destruct e as [| |r|r]; simpl in H.
  - injection H as <-. unfold goNext.
    split; try (simpl; auto; fail).
    rewrite clicks_invoke. simpl.
    change (clicks (set_pending_status _ st)) with (clicks st). lia.
  - injection H as <-. unfold goBack.
    split; try (simpl; auto; fail).
    rewrite clicks_invoke. simpl. exact Ha.
  - destruct (Nat.ltb_spec 0 (pending_status st)); [|discriminate].
    injection H as <-. unfold provision_status_settled.
    destruct r as [data|error]; [destruct (status data)|].
    + split; try (simpl; auto; fail).
      rewrite clicks_invoke. simpl.
      change (clicks (set_pending_machine_id _ _)) with (clicks st). lia.
    + split; simpl.
      * change (clicks (goto _ _)) with (clicks st).
        rewrite length_app. simpl. lia.
      * destruct (id (machineInfo st)); [apply in_or_app; auto|].
        intros I. apply in_app_or in I as [I | [I | []]];
          [auto | discriminate].
      * intros x I. apply in_app_or in I as [I | [<- | []]]; auto.
      * auto.
    + split; simpl; auto.
      change (clicks (toast_error _ _)) with (clicks st).
      rewrite length_app. simpl. lia.
  - destruct (Nat.ltb_spec 0 (pending_machine_id st)); [|discriminate].
    injection H as <-. unfold machine_id_settled.
    destruct r as [data|error].
    + split; simpl.
      * change (clicks (goto _ _)) with (clicks st).
        rewrite length_app. simpl. lia.
      * apply in_or_app. right. left. reflexivity.
      * intros x I. apply in_app_or in I as [I | [<- | []]]; auto.
      * auto.
    + split; simpl; auto.
      change (clicks (toast_error _ _)) with (clicks st).
      rewrite length_app. simpl. lia.
Qed.

Lemma landing_reachable_inv st : reachable st -> Inv st.
Proof.
  apply JsFacts.reachable_invariant;
    [exact landing_inv_boot | exact landing_inv_step].
Qed.

(** X16.  In every reachable state of the landing page, every [goNext]
    started is either still waiting on one of its two agent calls or has
    ended in exactly one navigation or exactly one error toast; the page
    navigates only to the configured screen and to the connectivity
    check; and it has navigated to the configured screen exactly when
    the store holds an id. *)
Theorem every_click_ends_once st :
  reachable st ->
  clicks st =
    (pending_status st + pending_machine_id st
     + List.length (navigated st) + List.length (toasts st))%nat
  /\ (forall r, In r (navigated st) -> r = machine_info \/ r = check_internet)
  /\ (In machine_info (navigated st) <-> exists x, id (machineInfo st) = Some x).
Proof.
  intros Hst. destruct (landing_reachable_inv _ Hst) as [Ha Hs Hr _].
  split; [exact Ha|]. split; [exact Hr|].
  destruct (id (machineInfo st)) as [x|].
  - split; [eauto | intros _; exact Hs].
  - split; [intros I; destruct (Hs I) | intros [x Hx]; discriminate].
Qed.

Lemma every_click_ends_once_witness :
  clicks (after agent_lost) =
    (pending_status (after agent_lost) + pending_machine_id (after agent_lost)
     + List.length (navigated (after agent_lost))
     + List.length (toasts (after agent_lost)))%nat.
Proof.
  assert (Hreach : reachable (after agent_lost)).
  { apply (JsFacts.run_reachable step boot agent_lost). vm_compute. reflexivity. }
  exact (proj1 (every_click_ends_once _ Hreach)).
Defined.

Lemma store_follows_identity evs : forall st st',
  run step st evs = Some st' ->
  id (machineInfo st') =
  match last_machine_id evs with
  | Some x => Some x
  | None => id (machineInfo st)
  end.
Proof.
  induction evs as [|e evs IH]; simpl; intros st st' H.
  - injection H as <-. reflexivity.
  - destruct (step st e) as [s1|] eqn:Hs1; [|discriminate].
    rewrite (IH _ _ H). destruct (last_machine_id evs); [reflexivity|].
    destruct e as [| |r|r]; simpl in Hs1.
    + injection Hs1 as <-. reflexivity.
    + injection Hs1 as <-. reflexivity.
    + destruct (0 <? pending_status st)%nat; [|discriminate].
      injection Hs1 as <-. unfold provision_status_settled.
      destruct r as [data|error]; [destruct (status data)|]; reflexivity.
    + destruct (0 <? pending_machine_id st)%nat; [|discriminate].
      injection Hs1 as <-. destruct r; reflexivity.
Qed.

(** X17.  Along every run of the landing page the store holds the
    identity delivered by the last successful [get_machine_id] response,
    and stays empty while there has been none: a failed identity call,
    a failed or negative status call and the exit button never write
    the store. *)
Theorem store_holds_last_identity evs st :
  run step boot evs = Some st ->
  id (machineInfo st) = last_machine_id evs
  /\ name (machineInfo st) = None
  /\ icon (machineInfo st) = None.
Proof.
  intros H. split.
  - rewrite (store_follows_identity _ _ _ H).
    destruct (last_machine_id evs); reflexivity.
  - apply (inv_fields _ (landing_reachable_inv _ (JsFacts.run_reachable _ _ _ _ H))).
Qed.

Lemma store_holds_last_identity_witness :
  id (machineInfo (after (agent_lost ++ provisioned))) = Some "dev-123".
Proof.
  assert (H : run step boot (agent_lost ++ provisioned)
              = Some (after (agent_lost ++ provisioned)))
    by (vm_compute; reflexivity).
  exact (proj1 (store_holds_last_identity _ _ H)).
Defined.

End LandingFacts.
